(** * simple_graph_sqlite/database.py: a shallow embedding

    The module stores a directed graph of JSON documents in two SQLite
    relations and drives every operation through [atomic], a wrapper that
    opens a connection, runs a unit of work against a cursor, commits and
    closes.  The embedding follows the Python source function by function:

    - Python dictionaries that the code mutates are objects of a heap,
      passed by reference ([loc]);
    - a unit of work is a state-and-exception computation over the heap
      and the cursor it was handed;
    - SQL text is kept symbolic: the files and Jinja templates under [sql/]
      are not part of the sources, so a statement is identified by the file
      it was read from or by the template and the context it was rendered
      with. *)

From Stdlib Require Import ZArith Ascii.
From stdpp Require Import gmap strings list fin_maps pretty.

Local Open Scope string_scope.
Local Open Scope list_scope.
Set Warnings "-register-all".

(** ** JSON values and documents *)

Inductive value :=
| VNone
| VBool (b : bool)
| VInt (z : Z)
| VStr (s : string)
| VList (items : list value)
| VDict (items : list (string * value)).

(** [Dict[str, Any]]: the top level of a node body or of edge properties.
    A dictionary is modelled by its items; the order of the keys, which
    [json.dumps] keeps, is not. *)
Abbreviation doc := (gmap string value).

(** [Union[str, int]]: a node identifier. *)
Inductive ident :=
| IdStr (s : string)
| IdInt (z : Z).

Definition ident_value (i : ident) : value :=
  match i with
  | IdStr s => VStr s
  | IdInt z => VInt z
  end.

Fixpoint value_eqb (a b : value) {struct a} : bool :=
  match a, b with
  | VNone, VNone => true
  | VBool x, VBool y => bool_decide (x = y)
  | VInt x, VInt y => bool_decide (x = y)
  | VStr x, VStr y => bool_decide (x = y)
  | VList xs, VList ys =>
      (fix go (xs ys : list value) {struct xs} : bool :=
         match xs, ys with
         | [], [] => true
         | x :: xs', y :: ys' => value_eqb x y && go xs' ys'
         | _, _ => false
         end) xs ys
  | VDict xs, VDict ys =>
      (fix go (xs ys : list (string * value)) {struct xs} : bool :=
         match xs, ys with
         | [], [] => true
         | (k, x) :: xs', (l, y) :: ys' =>
             bool_decide (k = l) && value_eqb x y && go xs' ys'
         | _, _ => false
         end) xs ys
  | _, _ => false
  end.

Lemma value_eqb_spec (a b : value) : value_eqb a b = true ↔ a = b.
Proof.
  revert b. induction a as [| | | |xs IH|xs IH] using
    (fix F (a : value) : ∀ P : value → Prop,
       P VNone → (∀ b, P (VBool b)) → (∀ z, P (VInt z)) → (∀ s, P (VStr s)) →
       (∀ xs, Forall P xs → P (VList xs)) →
       (∀ xs, Forall (λ kv, P kv.2) xs → P (VDict xs)) → P a :=
       λ P h0 h1 h2 h3 h4 h5,
         match a with
         | VNone => h0
         | VBool b => h1 b
         | VInt z => h2 z
         | VStr s => h3 s
         | VList xs =>
             h4 xs ((fix G (l : list value) : Forall P l :=
                       match l with
                       | [] => Forall_nil_2 P
                       | x :: l' => Forall_cons_2 P x l' (F x P h0 h1 h2 h3 h4 h5) (G l')
                       end) xs)
         | VDict xs =>
             h5 xs ((fix G (l : list (string * value)) : Forall (λ kv, P kv.2) l :=
                       match l with
                       | [] => Forall_nil_2 _
                       | kv :: l' =>
                           Forall_cons_2 (λ kv, P kv.2) kv l' (F kv.2 P h0 h1 h2 h3 h4 h5) (G l')
                       end) xs)
         end); intros b0; destruct b0; simpl;
    rewrite ?bool_decide_eq_true; try (split; congruence).
  - revert items. induction IH as [|x xs Hx _ IHxs]; intros [|y ys];
      try (split; congruence).
    rewrite andb_true_iff, Hx, IHxs.
    split; [intros [-> ?]; congruence|intros [= -> ->]; done].
  - revert items. induction IH as [|[k x] xs Hx _ IHxs]; intros [|[l y] ys];
      try (split; congruence).
    simpl in Hx. rewrite !andb_true_iff, bool_decide_eq_true, Hx, IHxs.
    split; [intros [[-> ->] ?]; congruence|intros [= -> -> ->]; done].
Qed.

Global Instance value_eq_dec : EqDecision value.
Proof.
  intros a b. destruct (value_eqb a b) eqn:E.
  - left. by apply value_eqb_spec.
  - right. intros H. apply value_eqb_spec in H. congruence.
Defined.

Global Instance ident_eq_dec : EqDecision ident.
Proof. solve_decision. Defined.

Global Instance ident_countable : Countable ident.
Proof.
  refine (inj_countable'
            (λ i, match i with IdStr s => inl s | IdInt z => inr z end)
            (λ x, match x with inl s => IdStr s | inr z => IdInt z end) _).
  by intros [].
Defined.

(** ** What crosses the cursor: SQL text, parameters, rows *)

(** A column value of a result row.  [SqlJson d] is the TEXT value that
    holds the JSON serialisation of the document [d]: bodies and properties
    are stored as [json.dumps] wrote them and read back by [json.loads], and
    on documents this round trip is the identity, so the model keeps the
    document itself. *)
Inductive sqlval :=
| SqlNull
| SqlInt (z : Z)
| SqlText (s : string)
| SqlJson (d : doc).

Global Instance sqlval_eq_dec : EqDecision sqlval.
Proof. solve_decision. Defined.

Abbreviation row := (list sqlval).

(** A bound parameter of [cursor.execute]. *)
Inductive param :=
| PId (i : ident)
| PJson (d : doc)
| PAny (v : value).

(** The keyword arguments [clause_template.render] is called with; [None]
    is a keyword that was not passed. *)
Record clause_ctx := ClauseCtx {
  and_or : option string;
  key : option (option string);
  tree : option bool;
  predicate : option string;
  key_value : option bool;
  id_lookup : option bool
}.

Global Instance clause_ctx_eq_dec : EqDecision clause_ctx.
Proof. solve_decision. Defined.

(** One WHERE fragment: rendered from the clause template, or text the
    caller wrote. *)
Inductive clause :=
| ClauseRender (ctx : clause_ctx)
| ClauseText (s : string).

Global Instance clause_eq_dec : EqDecision clause.
Proof. solve_decision. Defined.

(** Query text, by origin. *)
Inductive sql :=
| Literal (s : string)
| ReadSql (sql_file : string)
| SearchRender (result_column : string) (tree : option bool)
    (key : option string) (search_clauses : list clause)
| TraverseRender (with_bodies : bool) (inbound outbound : option bool).

Global Instance sql_eq_dec : EqDecision sql.
Proof. solve_decision. Defined.

Definition read_sql (sql_file : string) : sql := ReadSql sql_file.

(** ** Python exceptions and results *)

Inductive exn :=
| IntegrityError (msg : string)
| OperationalError (msg : string)
| ProgrammingError (msg : string)
| ValueError (msg : string)
| TypeError (msg : string)
| IndexError (msg : string)
| Exception (msg : string).

Inductive result (A : Type) :=
| Ok (a : A)
| Raise (e : exn).
Arguments Ok {A} a.
Arguments Raise {A} e.

Definition is_ok {A} (r : result A) : bool :=
  match r with Ok _ => true | Raise _ => false end.

(** ** The storage engine *)

(** Modelled from the spec: the schema file [schema.sql] is not part of the
    sources.  The node relation has the identifier as primary key and a
    document column; the edge relation has a source, a target (foreign keys
    to the node relation) and a document column, and admits several edges
    between the same two nodes.  Identifiers are compared as they are: a
    column affinity that would let the integer 3 match the text ["3"] is a
    matter of the schema file and is not modelled. *)
Record Store := MkStore {
  nodes : gmap ident doc;
  edges : list (ident * ident * doc)
}.

Global Instance Store_inhabited : Inhabited Store := populate (MkStore ∅ []).

(** The identifier column of a node row.  The insert statement is handed the
    document alone, so the engine takes the identifier from the document;
    the data model admits strings and integers. *)
Definition doc_id (body : doc) : option ident :=
  match body !! "id" with
  | Some (VStr s) => Some (IdStr s)
  | Some (VInt z) => Some (IdInt z)
  | _ => None
  end.

Definition references (i : ident) (e : ident * ident * doc) : bool :=
  bool_decide (e.1.1 = i) || bool_decide (e.1.2 = i).

(** Modelled from the spec: [insert-node.sql] writes one node row; the
    primary key rejects a document without an identifier and an identifier
    that is already stored. *)
Definition insert_node_stmt (body : doc) (s : Store) : result Store :=
  match doc_id body with
  | None => Raise (IntegrityError "NOT NULL constraint failed: nodes.id")
  | Some i =>
      match nodes s !! i with
      | Some _ => Raise (IntegrityError "UNIQUE constraint failed: nodes.id")
      | None => Ok (MkStore (<[i := body]> (nodes s)) (edges s))
      end
  end.

(** Modelled from the spec: [update-node.sql] rewrites the document of the
    row with the given identifier, if there is one. *)
Definition update_node_stmt (body : doc) (i : ident) (s : Store) : result Store :=
  match nodes s !! i with
  | Some _ => Ok (MkStore (<[i := body]> (nodes s)) (edges s))
  | None => Ok s
  end.

(** Modelled from the spec: [insert-edge.sql] appends an edge row; with
    foreign keys enforced both endpoints must be stored nodes. *)
Definition insert_edge_stmt (fk : bool) (src tgt : ident) (props : doc)
    (s : Store) : result Store :=
  if fk && negb (bool_decide (is_Some (nodes s !! src)) &&
                 bool_decide (is_Some (nodes s !! tgt)))
  then Raise (IntegrityError "FOREIGN KEY constraint failed")
  else Ok (MkStore (nodes s) (edges s ++ [(src, tgt, props)])).

(** Modelled from the spec: [delete-edge.sql] deletes the edges whose source
    is the first parameter or whose target is the second. *)
Definition delete_edge_stmt (src tgt : ident) (s : Store) : result Store :=
  Ok (MkStore (nodes s)
        (filter (λ e, ¬ (e.1.1 = src ∨ e.1.2 = tgt)) (edges s))).

(** Modelled from the spec: [delete-node.sql] deletes the node row; with
    foreign keys enforced the row must not be referenced by an edge. *)
Definition delete_node_stmt (fk : bool) (i : ident) (s : Store) : result Store :=
  if fk && bool_decide (is_Some (nodes s !! i)) && existsb (references i) (edges s)
  then Raise (IntegrityError "FOREIGN KEY constraint failed")
  else Ok (MkStore (delete i (nodes s)) (edges s)).

(** The query [find_node] renders: the search template around the single
    clause rendered with [id_lookup=True]. *)
Definition id_lookup_clause : clause :=
  ClauseRender (ClauseCtx None None None None None (Some true)).

(** Modelled from the spec: the point lookup yields the body of the node
    with the given identifier, or no row. *)
Definition select_node_stmt (i : ident) (s : Store) : list row :=
  match nodes s !! i with
  | Some body => [[SqlJson body]]
  | None => []
  end.

(** The statements of the SQL files, by file name and bound parameters. *)
Definition run_file (sql_file : string) (params : list param) (fk : bool)
    (s : Store) : result Store :=
  if decide (sql_file = "insert-node.sql") then
    match params with
    | [PJson body] => insert_node_stmt body s
    | _ => Raise (ProgrammingError "Incorrect bindings supplied")
    end
  else if decide (sql_file = "update-node.sql") then
    match params with
    | [PJson body; PId i] => update_node_stmt body i s
    | _ => Raise (ProgrammingError "Incorrect bindings supplied")
    end
  else if decide (sql_file = "insert-edge.sql") then
    match params with
    | [PId src; PId tgt; PJson props] => insert_edge_stmt fk src tgt props s
    | _ => Raise (ProgrammingError "Incorrect bindings supplied")
    end
  else if decide (sql_file = "delete-edge.sql") then
    match params with
    | [PId src; PId tgt] => delete_edge_stmt src tgt s
    | _ => Raise (ProgrammingError "Incorrect bindings supplied")
    end
  else if decide (sql_file = "delete-node.sql") then
    match params with
    | [PId i] => delete_node_stmt fk i s
    | _ => Raise (ProgrammingError "Incorrect bindings supplied")
    end
  else Raise (OperationalError "no such statement").

Definition pragma_foreign_keys : sql := Literal "PRAGMA foreign_keys = TRUE;".

(** ** Cursors, the heap of dictionaries, units of work *)

(** A cursor of an open connection: the foreign-key switch of the
    connection, the database as the open transaction sees it, and the
    statements executed so far with their bound parameters. *)
Record Cursor := MkCursor {
  foreign_keys : bool;
  working : Store;
  executed : list (sql * list param)
}.

Abbreviation loc := positive.

Record World := MkWorld {
  heap : gmap loc doc;
  cursor : Cursor
}.

(** [Callable[[sqlite3.Cursor], A]]: what [atomic] runs.  A unit of work
    reads and writes the caller's dictionaries and, through the cursor, the
    open transaction of the connection; it may raise.  Statements that
    commit by themselves ([executescript], which [initialize] uses for the
    schema) are outside this model. *)
Definition M (A : Type) : Type := World → result A * World.

Global Instance M_ret : MRet M := λ A a w, (Ok a, w).

Global Instance M_bind : MBind M := λ A B k m w,
  match m w with
  | (Ok a, w') => k a w'
  | (Raise e, w') => (Raise e, w')
  end.

Definition raise {A} (e : exn) : M A := λ w, (Raise e, w).

(** [for x in xs: body(x)] *)
Fixpoint for_each {X} (body : X → M unit) (xs : list X) : M unit :=
  match xs with
  | [] => mret tt
  | x :: xs' => body x ;; for_each body xs'
  end.

(** [[f(x) for x in xs]] *)
Fixpoint comprehension {X Y} (f : X → M Y) (xs : list X) : M (list Y) :=
  match xs with
  | [] => mret []
  | x :: xs' => y ← f x; ys ← comprehension f xs'; mret (y :: ys)
  end.

(** A new dictionary object with the given items. *)
Definition dict_new (d : doc) : M loc := λ w,
  let l := fresh (dom (heap w)) in
  (Ok l, MkWorld (<[l := d]> (heap w)) (cursor w)).

Definition dict_items (l : loc) : M doc := λ w,
  (Ok (default ∅ (heap w !! l)), w).

(** [d[k] = v] *)
Definition dict_setitem (l : loc) (k : string) (v : value) : M unit := λ w,
  (Ok tt, MkWorld (alter (<[k := v]>) l (heap w)) (cursor w)).

(** [json.dumps(d)] of a dictionary: its items at the time of the call. *)
Definition json_dumps (l : loc) : M doc := dict_items l.

(** [json.loads] of a column value. *)
Definition json_loads (v : sqlval) : M doc :=
  match v with
  | SqlJson d => mret d
  | SqlText _ => raise (ValueError "JSONDecodeError")
  | _ => raise (TypeError "the JSON object must be str, bytes or bytearray")
  end.

Section Database.

(** What the engine answers to the rendered search and traversal queries:
    the templates are not part of the sources. *)
Variable engine_select : sql → list param → Store → list row.

Definition engine (q : sql) (params : list param) (fk : bool) (s : Store)
    : result (list row * bool * Store) :=
  match q with
  | Literal text =>
      if decide (text = "PRAGMA foreign_keys = TRUE;") then Ok ([], true, s)
      else Raise (OperationalError "syntax error")
  | ReadSql sql_file =>
      match run_file sql_file params fk s with
      | Ok s' => Ok ([], fk, s')
      | Raise e => Raise e
      end
  | SearchRender result_column None None [c] =>
      if decide (result_column = "body" ∧ c = id_lookup_clause) then
        match params with
        | [PId i] => Ok (select_node_stmt i s, fk, s)
        | _ => Raise (ProgrammingError "Incorrect bindings supplied")
        end
      else Ok (engine_select q params s, fk, s)
  | _ => Ok (engine_select q params s, fk, s)
  end.

(** [cursor.execute(q, params)]; a statement that fails changes nothing. *)
Definition cursor_execute (q : sql) (params : list param) : M (list row) := λ w,
  let c := cursor w in
  let log := executed c ++ [(q, params)] in
  match engine q params (foreign_keys c) (working c) with
  | Ok (rows, fk, s) => (Ok rows, MkWorld (heap w) (MkCursor fk s log))
  | Raise e =>
      (Raise e, MkWorld (heap w) (MkCursor (foreign_keys c) (working c) log))
  end.

(** [cursor.executemany(q, seq)] *)
Definition cursor_executemany (q : sql) (seq : list (list param)) : M unit :=
  for_each (λ params, cursor_execute q params ;; mret tt) seq.

(** ** Node store *)

Definition _set_id (identifier : option ident) (data : loc) : M loc :=
  match identifier with
  | Some i => dict_setitem data "id" (ident_value i) ;; mret data
  | None => mret data
  end.

Definition _insert_node (identifier : option ident) (data : loc) : M unit :=
  d ← _set_id identifier data;
  body ← json_dumps d;
  cursor_execute (read_sql "insert-node.sql") [PJson body] ;;
  mret tt.

Definition add_node (data : loc) (identifier : option ident) : M unit :=
  _insert_node identifier data.

Definition add_nodes (nodes : list loc) (ids : list (option ident)) : M unit :=
  seq ← comprehension
           (λ '(i, n), d ← _set_id i n; body ← json_dumps d; mret [PJson body])
           (zip ids nodes);
  cursor_executemany (read_sql "insert-node.sql") seq.

(** ** Query compiler *)

Definition _generate_clause (key : option string) (predicate joiner : option string)
    (tree tree_with_key : bool) : clause :=
  let predicate := default "=" predicate in
  let joiner := default EmptyString joiner in
  if tree then
    if tree_with_key then
      ClauseRender (ClauseCtx (Some joiner) (Some key) (Some tree) (Some predicate) None None)
    else
      ClauseRender (ClauseCtx (Some joiner) None (Some tree) (Some predicate) None None)
  else
    ClauseRender (ClauseCtx (Some joiner) (Some key) None (Some predicate) (Some true) None).

(** [if key:] on an [Optional[str]] *)
Definition truthy (key : option string) : bool :=
  match key with
  | Some s => negb (bool_decide (s = EmptyString))
  | None => false
  end.

Definition _generate_query (where_clauses : list clause) (result_column : option string)
    (key : option string) (tree : bool) : sql :=
  let result_column := default "body" result_column in
  if tree then
    if truthy key then SearchRender result_column (Some tree) key where_clauses
    else SearchRender result_column (Some tree) None where_clauses
  else SearchRender result_column None None where_clauses.

Definition find_node (identifier : ident) : M doc :=
  let query := _generate_query [ClauseRender (ClauseCtx None None None None None (Some true))]
                 None None false in
  rows ← cursor_execute query [PId identifier];
  match rows with
  | (body :: _) :: _ => json_loads body
  | _ => mret ∅
  end.

Definition _upsert_node (identifier : ident) (data : loc) : M unit :=
  current_data ← find_node identifier;
  if decide (current_data = ∅) then _insert_node (Some identifier) data
  else
    new_items ← dict_items data;
    updated_data ← dict_new (new_items ∪ current_data);
    d ← _set_id (Some identifier) updated_data;
    body ← json_dumps d;
    cursor_execute (read_sql "update-node.sql") [PJson body; PId identifier] ;;
    mret tt.

Definition upsert_node (identifier : ident) (data : loc) : M unit :=
  _upsert_node identifier data.

Definition upsert_nodes (nodes : list loc) (ids : list ident) : M unit :=
  for_each (λ '(id_val, node), _upsert_node id_val node) (zip ids nodes).

(** ** Edge store *)

(** Edge properties are only serialised, never written to: they are passed
    by value. *)
Definition connect_nodes (source_id target_id : ident) (properties : doc) : M unit :=
  cursor_execute (read_sql "insert-edge.sql")
    [PId source_id; PId target_id; PJson properties] ;;
  mret tt.

Definition connect_many_nodes (sources targets : list ident) (properties : list doc)
    : M unit :=
  cursor_executemany (read_sql "insert-edge.sql")
    ((λ '(s, t, p), [PId s; PId t; PJson p]) <$> zip (zip sources targets) properties).

Definition remove_node (identifier : ident) : M unit :=
  cursor_execute (read_sql "delete-edge.sql") [PId identifier; PId identifier] ;;
  cursor_execute (read_sql "delete-node.sql") [PId identifier] ;;
  mret tt.

Definition remove_nodes (identifiers : list ident) : M unit :=
  cursor_executemany (read_sql "delete-edge.sql")
    ((λ identifier, [PId identifier; PId identifier]) <$> identifiers) ;;
  cursor_executemany (read_sql "delete-node.sql")
    ((λ identifier, [PId identifier]) <$> identifiers).

(** ** Search *)

Definition _parse_search_results (results : list row) (idx : nat) : M (list doc) :=
  comprehension
    (λ item : row,
       match item !! idx with
       | Some v => json_loads v
       | None => raise (IndexError "tuple index out of range")
       end)
    results.

Definition find_nodes (where_clauses : list clause) (bindings : list param)
    (tree_query : bool) (key : option string) : M (list doc) :=
  let query := _generate_query where_clauses None key tree_query in
  rows ← cursor_execute query bindings;
  _parse_search_results rows 0.

(** ** Transaction executor *)

(** What [atomic] does to the connection, in order. *)
Inductive event :=
| EvConnect (db_file : string)
| EvCursor
| EvPragma
| EvCall
| EvCommit
| EvClose.

Global Instance event_eq_dec : EqDecision event.
Proof. solve_decision. Defined.

(** The failures of the connection itself: [sqlite3.connect] and
    [connection.commit] may raise. *)
Record Faults := MkFaults {
  connect_fault : option exn;
  commit_fault : option exn
}.

(** The program around [atomic]: the dictionaries of the caller, the
    committed content of every database file, the connection events. *)
Record Process := MkProcess {
  objects : gmap loc doc;
  disk : gmap string Store;
  events : list event
}.

Definition atomic {A} (io : Faults) (db_file : string) (cursor_exec_fn : M A)
    (p : Process) : result A * Process :=
  let ev := events p ++ [EvConnect db_file] in
  match connect_fault io with
  | Some e => (Raise e, MkProcess (objects p) (disk p) ev)
  | None =>
      let connection := MkCursor false (disk p !!! db_file) [] in
      let ev := ev ++ [EvCursor; EvPragma] in
      match cursor_execute pragma_foreign_keys [] (MkWorld (objects p) connection) with
      | (Raise e, w) => (Raise e, MkProcess (heap w) (disk p) (ev ++ [EvClose]))
      | (Ok _, w) =>
          match cursor_exec_fn w with
          | (Raise e, w) =>
              (Raise e, MkProcess (heap w) (disk p) (ev ++ [EvCall; EvClose]))
          | (Ok results, w) =>
              let ev := ev ++ [EvCall; EvCommit] in
              match commit_fault io with
              | Some e => (Raise e, MkProcess (heap w) (disk p) (ev ++ [EvClose]))
              | None =>
                  (Ok results,
                   MkProcess (heap w) (<[db_file := working (cursor w)]> (disk p))
                     (ev ++ [EvClose]))
              end
          end
      end
  end.

(** ** Traversal engine *)

Definition find_neighbors (with_bodies : bool) : sql :=
  TraverseRender with_bodies (Some true) (Some true).

Definition find_outbound_neighbors (with_bodies : bool) : sql :=
  TraverseRender with_bodies None (Some true).

Definition find_inbound_neighbors (with_bodies : bool) : sql :=
  TraverseRender with_bodies (Some true) None.

(** The double quote, code point 34. *)
Definition dquote : Ascii.ascii := Ascii.ascii_of_nat 34.

Definition hex_digit (n : N) : Ascii.ascii :=
  match n with
  | 0 => "0" | 1 => "1" | 2 => "2" | 3 => "3" | 4 => "4" | 5 => "5"
  | 6 => "6" | 7 => "7" | 8 => "8" | 9 => "9" | 10 => "a" | 11 => "b"
  | 12 => "c" | 13 => "d" | 14 => "e" | _ => "f"
  end%N%char.

(** [json.dumps] of a string escapes the quote, the backslash and every
    character outside the printable ASCII range.  A character of the model
    is a code point below 256. *)
Definition json_escape_char (c : Ascii.ascii) : string :=
  let n := Ascii.N_of_ascii c in
  if decide (n = 34%N) then String "\" (String dquote EmptyString)
  else if decide (n = 92%N) then "\\"
  else if decide (n = 8%N) then "\b"
  else if decide (n = 12%N) then "\f"
  else if decide (n = 10%N) then "\n"
  else if decide (n = 13%N) then "\r"
  else if decide (n = 9%N) then "\t"
  else if decide (n < 32 ∨ 126 < n)%N then
    String "\" (String "u" (String "0" (String "0"
      (String (hex_digit (n / 16)) (String (hex_digit (n mod 16)) EmptyString)))))
  else String c EmptyString.

Fixpoint json_escape (s : string) : string :=
  match s with
  | EmptyString => EmptyString
  | String c s' => json_escape_char c +:+ json_escape s'
  end.

(** [json.dumps(tgt)] for [tgt : Optional[Union[str, int]]] *)
Definition json_dumps_id (tgt : option ident) : string :=
  match tgt with
  | None => "null"
  | Some (IdInt z) => pretty z
  | Some (IdStr s) => String dquote (json_escape s +:+ String dquote EmptyString)
  end.

(** An element of the returned path: a bare identifier, or a whole row. *)
Inductive pyval :=
| PyScalar (v : sqlval)
| PyTuple (r : row).

Global Instance pyval_eq_dec : EqDecision pyval.
Proof. solve_decision. Defined.

(** The [for row in cursor.execute(...)] loop of [_traverse], over the rows
    the cursor still has to yield; returns the path and the rows that were
    never fetched. *)
Fixpoint _traverse_loop (with_bodies : bool) (target : string) (rows : list row)
    (path : list pyval) : result (list pyval) * list row :=
  match rows with
  | [] => (Ok path, [])
  | row :: rows' =>
      match row with
      | [] => _traverse_loop with_bodies target rows' path
      | row0 :: _ =>
          if with_bodies then
            match row with
            | [identifier; obj; _] =>
                let path := path ++ [PyTuple row] in
                if decide (identifier = SqlText target ∧ obj = SqlText "()")
                then (Ok path, rows')
                else _traverse_loop with_bodies target rows' path
            | _ => (Raise (ValueError "wrong number of values to unpack"), rows')
            end
          else
            let identifier := row0 in
            if decide (PyScalar identifier ∈ path)
            then _traverse_loop with_bodies target rows' path
            else
              let path := path ++ [PyScalar identifier] in
              if decide (identifier = SqlText target) then (Ok path, rows')
              else _traverse_loop with_bodies target rows' path
      end
  end.

Definition _traverse (src : ident) (tgt : option ident) (neighbors_fn : bool → sql)
    (with_bodies : bool) : M (list pyval) :=
  let target := json_dumps_id tgt in
  rows ← cursor_execute (neighbors_fn with_bodies) [PId src];
  match _traverse_loop with_bodies target rows [] with
  | (Ok path, _) => mret path
  | (Raise e, _) => raise e
  end.

Definition traverse (io : Faults) (db_file : string) (src : ident) (tgt : option ident)
    (neighbors_fn : bool → sql) (with_bodies : bool)
    : Process → result (list pyval) * Process :=
  atomic io db_file (_traverse src tgt neighbors_fn with_bodies).


(** * Vocabulary of the properties *)

(** The document [_upsert_node] writes over a stored, non-empty one. *)
Definition merged (i : ident) (new_items current_data : doc) : doc :=
  <["id" := ident_value i]> (new_items ∪ current_data).

(** An identifier that [sqlite3] can bind as a statement parameter: a
    string, or an integer of the signed 64-bit range.  Binding any other
    integer raises [OverflowError] in [cursor.execute], an error the cursor
    of this model does not have; the properties that need a statement with
    the identifier to run are stated for bindable identifiers. *)
Definition bindable (i : ident) : Prop :=
  match i with
  | IdStr _ => True
  | IdInt z => (- 2 ^ 63 ≤ z < 2 ^ 63)%Z
  end.

(** [body["id"] == id] *)
Definition carries_id (i : ident) (body : doc) : Prop :=
  body !! "id" = Some (ident_value i).

(** Every node row of [s'] is a row of [s] or carries its own identifier:
    whatever was written between the two, was written with
    [body["id"] == id]. *)
Definition writes_carry_id (s s' : Store) : Prop :=
  ∀ i body, nodes s' !! i = Some body → nodes s !! i = Some body ∨ carries_id i body.

(** A unit of work that only writes node rows of that kind, from whatever
    world it is started in and whether it returns or raises. *)
Definition node_writes_carry_id {A} (m : M A) : Prop :=
  ∀ w, writes_carry_id (working (cursor w)) (working (cursor (m w).2)).


(** The edge has the node as source or as target. *)
Definition incident (i : ident) (e : ident * ident * doc) : Prop :=
  e.1.1 = i ∨ e.1.2 = i.

(** The world a unit of work is started in: the caller's dictionaries and a
    cursor of the new connection, after the pragma. *)
Definition started (db_file : string) (p : Process) : World :=
  MkWorld (objects p)
    (MkCursor true (disk p !!! db_file) [(pragma_foreign_keys, [])]).

(** The row that ends a walk with bodies: the target identifier on a node
    marker. *)
Definition is_target_node (target : string) (r : row) : Prop :=
  ∃ document, r = [SqlText target; SqlText "()"; document].

(** The identifiers of the rows, in yielded order (an empty row is
    skipped). *)
Definition first_column (rows : list row) : list sqlval := omap head rows.

(** [for m in singles: m(cursor)]: the single-row operations, one after the
    other on the same cursor. *)
Definition one_by_one (singles : list (M unit)) : M unit :=
  for_each (λ m, m) singles.

(** A bulk operation does what its single-row operations do one by one: it
    fails exactly when one of them fails, and when none does it leaves the
    same database. *)
Definition same_effect (bulk : M unit) (singles : list (M unit)) : Prop :=
  ∀ w,
    is_ok (bulk w).1 = is_ok (one_by_one singles w).1
    ∧ (is_ok (bulk w).1 = true →
       working (cursor (bulk w).2) = working (cursor (one_by_one singles w).2)).

(** Run through [atomic]: when an element fails, the call fails and the
    database file is as before; when none fails and the connection works,
    the call succeeds and the file holds the result of all elements; and
    nothing in between is ever committed. *)
Definition all_or_nothing (bulk : M unit) (singles : list (M unit)) : Prop :=
  ∀ io db_file p,
    let out := atomic io db_file bulk p in
    let each := one_by_one singles (started db_file p) in
    let applied := <[db_file := working (cursor each.2)]> (disk p) in
    (is_ok each.1 = false → is_ok out.1 = false ∧ disk out.2 = disk p)
    ∧ (is_ok each.1 = true → connect_fault io = None → commit_fault io = None →
       out.1 = Ok tt ∧ disk out.2 = applied)
    ∧ (disk out.2 = disk p
       ∨ (out.1 = Ok tt ∧ is_ok each.1 = true ∧ disk out.2 = applied)).

(** Statements read and write the cursor, never the heap. *)
Definition on_cursor (q : sql) (params : list param) (c : Cursor)
    : result (list row) * Cursor :=
  let out := cursor_execute q params (MkWorld ∅ c) in (out.1, cursor out.2).
Arguments on_cursor : simpl never.

(** [cursor.executemany] on the cursor alone. *)
Fixpoint many_on_cursor (q : sql) (seq : list (list param)) (c : Cursor)
    : result unit * Cursor :=
  match seq with
  | [] => (Ok tt, c)
  | params :: seq' =>
      match on_cursor q params c with
      | (Ok _, c1) => many_on_cursor q seq' c1
      | (Raise e, c1) => (Raise e, c1)
      end
  end.

(** The heap after [_set_id]. *)
Definition set_id_heap (identifier : option ident) (data : loc)
    (h : gmap loc doc) : gmap loc doc :=
  match identifier with
  | Some i => alter (<["id" := ident_value i]>) data h
  | None => h
  end.

(** The parameter lists the comprehension of [add_nodes] builds, with the
    heap it leaves. *)
Fixpoint serialise_all (l : list (option ident * loc)) (h : gmap loc doc)
    : list (list param) * gmap loc doc :=
  match l with
  | [] => ([], h)
  | (i, n) :: l' =>
      let h1 := set_id_heap i n h in
      let rest := serialise_all l' h1 in
      ([PJson (default ∅ (h1 !! n))] :: rest.1, rest.2)
  end.

(** The edges that touch none of the given nodes. *)
Definition without_edges (ids : list ident) (es : list (ident * ident * doc))
    : list (ident * ident * doc) :=
  foldl (λ es i, filter (λ e, ¬ incident i e) es) es ids.

(** The database without the given nodes and without their edges. *)
Definition removed (ids : list ident) (s : Store) : Store :=
  MkStore (foldl (λ ns i, delete i ns) (nodes s) ids) (without_edges ids (edges s)).

(** An engine that answers the rendered searches and traversals with the
    given rows. *)
Definition yields (rows : list row) : sql → list param → Store → list row :=
  λ _ _ _, rows.

(** An engine without search or traversal results. *)
Definition no_rows : sql → list param → Store → list row := yields [].

(** The stored document and the upsert input of the merge example. *)
Definition jobs : doc := {[ "id" := VStr "3"; "name" := VStr "Jobs" ]}.

Definition new_prop : doc := {[ "new_prop" := VStr "value" ]}.

Definition wozniak : doc := {[ "id" := VInt 2; "name" := VStr "Wozniak" ]}.

(** A database that stores [jobs] and [wozniak], joined by one edge. *)
Definition two_nodes : Store :=
  MkStore {[ IdStr "3" := jobs; IdInt 2 := wozniak ]} [(IdInt 2, IdStr "3", ∅)].

(** A cursor with foreign keys on over [two_nodes]; the heap holds one
    caller document. *)
Definition world_with (d : doc) : World :=
  MkWorld {[ 1%positive := d ]} (MkCursor true two_nodes []).

(** * Properties *)

(** ** The statements behind the SQL files *)

Arguments run_file : simpl never.

Lemma run_file_insert_node body fk s :
  run_file "insert-node.sql" [PJson body] fk s = insert_node_stmt body s.
Proof. reflexivity. Qed.

Lemma run_file_update_node body i fk s :
  run_file "update-node.sql" [PJson body; PId i] fk s = update_node_stmt body i s.
Proof. reflexivity. Qed.

Lemma run_file_insert_edge src tgt props fk s :
  run_file "insert-edge.sql" [PId src; PId tgt; PJson props] fk s
  = insert_edge_stmt fk src tgt props s.
Proof. reflexivity. Qed.

Lemma run_file_delete_edge src tgt fk s :
  run_file "delete-edge.sql" [PId src; PId tgt] fk s = delete_edge_stmt src tgt s.
Proof. reflexivity. Qed.

Lemma run_file_delete_node i fk s :
  run_file "delete-node.sql" [PId i] fk s = delete_node_stmt fk i s.
Proof. reflexivity. Qed.

Lemma doc_id_set_id (i : ident) (d : doc) :
  doc_id (<["id" := ident_value i]> d) = Some i.
Proof. unfold doc_id. rewrite lookup_insert_eq. by destruct i. Qed.

Lemma doc_id_lookup (body : doc) (i : ident) :
  doc_id body = Some i → body !! "id" = Some (ident_value i).
Proof.
  unfold doc_id. destruct (body !! "id") as [[| | | | |]|]; intros [= <-]; done.
Qed.

Ltac unfold_monad :=
  unfold mbind, M_bind, mret, M_ret, raise in *.

(** *** What single statements do to a world *)

Lemma find_node_spec (i : ident) (w : World) :
  find_node i w =
    (Ok (default ∅ (nodes (working (cursor w)) !! i)),
     MkWorld (heap w)
       (MkCursor (foreign_keys (cursor w)) (working (cursor w))
          (executed (cursor w) ++
             [(_generate_query [id_lookup_clause] None None false, [PId i])]))).
Proof.
  unfold find_node, cursor_execute. unfold_monad.
  simpl. unfold select_node_stmt.
  destruct (nodes (working (cursor w)) !! i); reflexivity.
Qed.

Lemma _set_id_spec (identifier : option ident) (data : loc) (w : World) :
  _set_id identifier data w =
    (Ok data,
     MkWorld
       (match identifier with
        | Some i => alter (<["id" := ident_value i]>) data (heap w)
        | None => heap w
        end)
       (cursor w)).
Proof. destruct identifier, w; reflexivity. Qed.

Lemma _insert_node_spec (identifier : option ident) (data : loc) (w : World) :
  let h := match identifier with
           | Some i => alter (<["id" := ident_value i]>) data (heap w)
           | None => heap w
           end in
  let body := default ∅ (h !! data) in
  let c := cursor w in
  let log := executed c ++ [(read_sql "insert-node.sql", [PJson body])] in
  _insert_node identifier data w =
    match insert_node_stmt body (working c) with
    | Ok s => (Ok tt, MkWorld h (MkCursor (foreign_keys c) s log))
    | Raise e => (Raise e, MkWorld h (MkCursor (foreign_keys c) (working c) log))
    end.
Proof.
  unfold _insert_node. simpl. unfold_monad.
  rewrite _set_id_spec. unfold json_dumps, dict_items, cursor_execute.
  simpl. rewrite run_file_insert_node.
  destruct (insert_node_stmt _ _); reflexivity.
Qed.

Lemma _upsert_node_absent (i : ident) (data : loc) (w : World) :
  default ∅ (nodes (working (cursor w)) !! i) = ∅ →
  _upsert_node i data w = _insert_node (Some i) data (find_node i w).2.
Proof.
  intros Hcur. unfold _upsert_node. unfold_monad.
  rewrite find_node_spec, Hcur. simpl. rewrite decide_True by done. reflexivity.
Qed.

Lemma _upsert_node_present (i : ident) (data : loc) (w : World) (C : doc) :
  nodes (working (cursor w)) !! i = Some C → C ≠ ∅ →
  let c := cursor w in
  let body := merged i (default ∅ (heap w !! data)) C in
  _upsert_node i data w =
    (Ok tt,
     MkWorld (<[fresh (dom (heap w)) := body]> (heap w))
       (MkCursor (foreign_keys c)
          (MkStore (<[i := body]> (nodes (working c))) (edges (working c)))
          ((executed c ++
              [(_generate_query [id_lookup_clause] None None false, [PId i])]) ++
             [(read_sql "update-node.sql", [PJson body; PId i])]))).
Proof.
  intros Hcur Hne. simpl. unfold _upsert_node. unfold_monad.
  rewrite find_node_spec, Hcur. simpl. rewrite decide_False by done.
  unfold dict_items, dict_new, _set_id, dict_setitem. unfold_monad. simpl.
  unfold json_dumps, dict_items, cursor_execute. simpl.
  rewrite alter_insert_eq, lookup_insert_eq. simpl.
  rewrite run_file_update_node. unfold update_node_stmt. simpl.
  rewrite Hcur. reflexivity.
Qed.

(** *** Caller-visible mutation of the document *)


(** *** The stored document carries the identifier of its row *)

Lemma writes_carry_id_refl s : writes_carry_id s s.
Proof. intros i body ?. by left. Qed.

Lemma writes_carry_id_trans s1 s2 s3 :
  writes_carry_id s1 s2 → writes_carry_id s2 s3 → writes_carry_id s1 s3.
Proof.
  intros H12 H23 i body H3. destruct (H23 i body H3) as [H2|?]; [|by right].
  by apply H12.
Qed.

Lemma carry_ret {A} (a : A) : node_writes_carry_id (mret a).
Proof. intros w. apply writes_carry_id_refl. Qed.

Lemma carry_bind {A B} (m : M A) (k : A → M B) :
  node_writes_carry_id m → (∀ a, node_writes_carry_id (k a)) →
  node_writes_carry_id (m ≫= k).
Proof.
  intros Hm Hk w. unfold_monad. specialize (Hm w).
  destruct (m w) as [[a|e] w1]; simpl in *; [|done].
  eapply writes_carry_id_trans; [exact Hm|apply Hk].
Qed.

Lemma carry_for_each {X} (body : X → M unit) (xs : list X) :
  (∀ x, node_writes_carry_id (body x)) → node_writes_carry_id (for_each body xs).
Proof.
  intros Hb. induction xs as [|x xs IH]; simpl.
  - apply carry_ret.
  - apply carry_bind; auto.
Qed.

Lemma carry_comprehension {X Y} (f : X → M Y) (xs : list X) :
  (∀ x, node_writes_carry_id (f x)) → node_writes_carry_id (comprehension f xs).
Proof.
  intros Hf. induction xs as [|x xs IH]; simpl.
  - apply carry_ret.
  - apply carry_bind; [auto|]. intros y. apply carry_bind; [auto|].
    intros ys. apply carry_ret.
Qed.

Lemma insert_node_stmt_carry body s s' :
  insert_node_stmt body s = Ok s' → writes_carry_id s s'.
Proof.
  unfold insert_node_stmt. destruct (doc_id body) as [j|] eqn:Hid; [|done].
  destruct (nodes s !! j); [done|]. intros [= <-] i b. simpl.
  rewrite lookup_insert_Some. intros [[<- <-]|[_ ?]]; [right|by left].
  by apply doc_id_lookup.
Qed.

Lemma carry_insert_node_execute params :
  node_writes_carry_id (cursor_execute (read_sql "insert-node.sql") params).
Proof.
  intros w. unfold cursor_execute. simpl.
  destruct (run_file _ _ _ _) as [s'|e] eqn:E; simpl;
    [|apply writes_carry_id_refl].
  unfold run_file in E. simpl in E.
  destruct params as [|[| body |] [|]]; try discriminate.
  by eapply insert_node_stmt_carry.
Qed.

Lemma carry_set_id identifier data : node_writes_carry_id (_set_id identifier data).
Proof. intros w. rewrite _set_id_spec. apply writes_carry_id_refl. Qed.

Lemma carry_insert_node identifier data :
  node_writes_carry_id (_insert_node identifier data).
Proof.
  intros w. rewrite _insert_node_spec. simpl.
  destruct (insert_node_stmt _ _) eqn:E; simpl.
  - by eapply insert_node_stmt_carry.
  - apply writes_carry_id_refl.
Qed.

Lemma carry_upsert_node i data : node_writes_carry_id (_upsert_node i data).
Proof.
  intros w. destruct (nodes (working (cursor w)) !! i) as [C|] eqn:Hcur.
  - destruct (decide (C = ∅)) as [->|Hne].
    + rewrite _upsert_node_absent by (by rewrite Hcur).
      pose proof (carry_insert_node (Some i) data (find_node i w).2) as H.
      rewrite find_node_spec in H |- *. exact H.
    + rewrite (_upsert_node_present _ _ _ C) by done. simpl.
      intros j b. simpl. rewrite lookup_insert_Some.
      intros [[<- <-]|[_ ?]]; [right|by left].
      unfold carries_id, merged. apply lookup_insert_eq.
  - rewrite _upsert_node_absent by (by rewrite Hcur).
    pose proof (carry_insert_node (Some i) data (find_node i w).2) as H.
    rewrite find_node_spec in H |- *. exact H.
Qed.

(** The writes keep the store well formed: if every stored document
    carried the identifier of its row before, every one does after. *)
Lemma node_writes_keep_store_well_formed {A} (m : M A) (w : World) :
  node_writes_carry_id m →
  map_Forall carries_id (nodes (working (cursor w))) →
  map_Forall carries_id (nodes (working (cursor (m w).2))).
Proof.
  intros Hm Hwf i body Hi. destruct (Hm w i body Hi) as [Hold|?]; [|done].
  by apply (Hwf i).
Qed.

(** Every node-store write (single and bulk insert, single and bulk
    upsert) leaves only rows that were there before, unchanged, or whose
    document has [body["id"]] equal to the identifier of the row. *)
Lemma node_writes_carry_id_all :
  (∀ data identifier, node_writes_carry_id (add_node data identifier))
  ∧ (∀ nodes ids, node_writes_carry_id (add_nodes nodes ids))
  ∧ (∀ identifier data, node_writes_carry_id (upsert_node identifier data))
  ∧ (∀ nodes ids, node_writes_carry_id (upsert_nodes nodes ids)).
Proof.
  split_and!.
  - intros data identifier. apply carry_insert_node.
  - intros ns ids. unfold add_nodes. apply carry_bind.
    + apply carry_comprehension. intros [i n]. apply carry_bind.
      * apply carry_set_id.
      * intros d. apply carry_bind; [|intros; apply carry_ret].
        intros w. apply writes_carry_id_refl.
    + intros seq. apply carry_for_each. intros params.
      apply carry_bind; [|intros; apply carry_ret].
      apply carry_insert_node_execute.
  - intros i data. apply carry_upsert_node.
  - intros ns ids. apply carry_for_each. intros [i n]. apply carry_upsert_node.
Qed.

(** *** Upsert: insert or merge *)

Lemma insert_node_stmt_set_id (i : ident) (d : doc) (s : Store) :
  insert_node_stmt (<["id" := ident_value i]> d) s =
    match nodes s !! i with
    | Some _ => Raise (IntegrityError "UNIQUE constraint failed: nodes.id")
    | None => Ok (MkStore (<[i := <["id" := ident_value i]> d]> (nodes s)) (edges s))
    end.
Proof. unfold insert_node_stmt. by rewrite doc_id_set_id. Qed.

Lemma _insert_node_live (i : ident) (data : loc) (d : doc) (w : World) :
  heap w !! data = Some d →
  let body := <["id" := ident_value i]> d in
  let c := cursor w in
  let log := executed c ++ [(read_sql "insert-node.sql", [PJson body])] in
  _insert_node (Some i) data w =
    match nodes (working c) !! i with
    | Some _ =>
        (Raise (IntegrityError "UNIQUE constraint failed: nodes.id"),
         MkWorld (<[data := body]> (heap w)) (MkCursor (foreign_keys c) (working c) log))
    | None =>
        (Ok tt,
         MkWorld (<[data := body]> (heap w))
           (MkCursor (foreign_keys c)
              (MkStore (<[i := body]> (nodes (working c))) (edges (working c))) log))
    end.
Proof.
  intros Hd. simpl. rewrite _insert_node_spec. simpl.
  assert (alter (<["id" := ident_value i]>) data (heap w)
          = <[data := <["id" := ident_value i]> d]> (heap w)) as ->.
  { apply map_eq. intros l. destruct (decide (data = l)) as [<-|Hne].
    - by rewrite lookup_alter_eq, lookup_insert_eq, Hd.
    - by rewrite lookup_alter_ne, lookup_insert_ne. }
  rewrite lookup_insert_eq. simpl. rewrite insert_node_stmt_set_id.
  destruct (nodes (working (cursor w)) !! i); reflexivity.
Qed.

Lemma merged_idem (i : ident) (d C : doc) :
  merged i d (merged i d C) = merged i d C.
Proof.
  unfold merged. apply map_eq. intros k.
  destruct (decide ("id" = k)) as [<-|Hne].
  - by rewrite !lookup_insert_eq.
  - rewrite !lookup_insert_ne by done. rewrite !lookup_union.
    rewrite lookup_insert_ne by done. rewrite lookup_union.
    by destruct (d !! k), (C !! k).
Qed.

Lemma merged_self (i : ident) (d : doc) :
  merged i (<["id" := ident_value i]> d) (<["id" := ident_value i]> d)
  = <["id" := ident_value i]> d.
Proof.
  unfold merged. rewrite (idemp_L (∪) (<["id" := ident_value i]> d)).
  apply insert_insert_eq.
Qed.


(** *** Upsert twice *)

(** C3. Upserting the same identifier with the same caller document twice
    in succession leaves the database after the second call equal to the
    database after the first: the stored document does not change. *)
Theorem upsert_node_twice (i : ident) (data : loc) (d : doc) (w : World) :
  heap w !! data = Some d →
  let w1 := (upsert_node i data w).2 in
  let w2 := (upsert_node i data w1).2 in
  working (cursor w2) = working (cursor w1)
  ∧ nodes (working (cursor w2)) !! i = nodes (working (cursor w1)) !! i.
Proof.
  intros Hd w1 w2. cut (working (cursor w2) = working (cursor w1)).
  { intros ->. done. }
  unfold w2, w1, upsert_node. clear w1 w2.
  destruct (nodes (working (cursor w)) !! i) as [C|] eqn:Hcur.
  - destruct (decide (C = ∅)) as [->|Hne].
    + (* an empty document is stored: both calls take the insert branch and
         the primary key rejects the row *)
      rewrite (_upsert_node_absent i data w) by (by rewrite Hcur).
      rewrite find_node_spec. simpl.
      rewrite (_insert_node_live i data d) by done. simpl. rewrite Hcur.
      rewrite _upsert_node_absent by (by simpl; rewrite Hcur).
      rewrite find_node_spec. simpl.
      rewrite (_insert_node_live i data (<["id" := ident_value i]> d))
        by (simpl; apply lookup_insert_eq).
      simpl. rewrite Hcur. done.
    + rewrite (_upsert_node_present i data w C) by done. simpl.
      rewrite Hd. simpl.
      rewrite (_upsert_node_present i data _ (merged i d C)); simpl.
      * rewrite lookup_insert_ne, Hd; simpl.
        -- by rewrite merged_idem, insert_insert_eq.
        -- intros Heq. pose proof (is_fresh (dom (heap w))) as Hfresh.
           rewrite Heq in Hfresh. apply Hfresh, elem_of_dom. eauto.
      * apply lookup_insert_eq.
      * apply insert_non_empty.
  - rewrite (_upsert_node_absent i data w) by (by rewrite Hcur).
    rewrite find_node_spec. simpl.
    rewrite (_insert_node_live i data d) by done. simpl. rewrite Hcur.
    rewrite (_upsert_node_present i data _ (<["id" := ident_value i]> d)); simpl.
    + rewrite lookup_insert_eq. simpl.
      by rewrite merged_self, insert_insert_eq.
    + apply lookup_insert_eq.
    + apply insert_non_empty.
Qed.

(** *** Removal cascades to the incident edges *)

Lemma references_incident i e : references i e = true ↔ incident i e.
Proof.
  unfold references, incident.
  rewrite orb_true_iff, !bool_decide_eq_true. done.
Qed.

Lemma existsb_references_filter i (es : list (ident * ident * doc)) :
  existsb (references i) (filter (λ e, ¬ incident i e) es) = false.
Proof.
  apply not_true_is_false. rewrite existsb_exists.
  intros (e & Hin & Href). apply references_incident in Href.
  apply list_elem_of_In, list_elem_of_filter in Hin. tauto.
Qed.

Lemma remove_node_spec (i : ident) (w : World) :
  let c := cursor w in
  remove_node i w =
    (Ok tt,
     MkWorld (heap w)
       (MkCursor (foreign_keys c)
          (MkStore (delete i (nodes (working c)))
             (filter (λ e, ¬ incident i e) (edges (working c))))
          ((executed c ++ [(read_sql "delete-edge.sql", [PId i; PId i])]) ++
             [(read_sql "delete-node.sql", [PId i])]))).
Proof.
  simpl. unfold remove_node, cursor_execute. unfold_monad. simpl.
  rewrite run_file_delete_node. unfold delete_node_stmt. simpl.
  change (λ e : ident * ident * doc, ¬ (e.1.1 = i ∨ e.1.2 = i))
    with (λ e, ¬ incident i e).
  rewrite existsb_references_filter, andb_false_r.
  reflexivity.
Qed.

(** C5. In a graph where nodes [A] and [B] are joined by an edge,
    [remove_node A] succeeds; it executes the edge deletion and then the
    node deletion, in that order; afterwards no edge has [A] as source or
    target, the edges that do not touch [A] are all still there, [A] is
    gone and [B] is stored with the document it had.  Deleting the node row
    first would have been refused by the foreign-key check. *)
Theorem remove_node_cascades (A B src tgt : ident) (docB props : doc) (w : World) :
  let s := working (cursor w) in
  A ≠ B →
  is_Some (nodes s !! A) →
  nodes s !! B = Some docB →
  (src, tgt, props) ∈ edges s →
  (src = A ∧ tgt = B) ∨ (src = B ∧ tgt = A) →
  let out := remove_node A w in
  let s' := working (cursor out.2) in
  out.1 = Ok tt
  ∧ executed (cursor out.2)
    = executed (cursor w) ++
        [(read_sql "delete-edge.sql", [PId A; PId A]);
         (read_sql "delete-node.sql", [PId A])]
  ∧ (∀ e, e ∈ edges s' → e.1.1 ≠ A ∧ e.1.2 ≠ A)
  ∧ (∀ e, e ∈ edges s → e.1.1 ≠ A → e.1.2 ≠ A → e ∈ edges s')
  ∧ nodes s' !! A = None
  ∧ nodes s' !! B = Some docB
  ∧ delete_node_stmt true A s
    = Raise (IntegrityError "FOREIGN KEY constraint failed").
Proof.
  intros s HAB HA HB Hedge Hends out s'. unfold s', out.
  rewrite remove_node_spec. simpl. split_and!.
  - done.
  - by rewrite <- app_assoc.
  - intros e [Hne _]%list_elem_of_filter. unfold incident in Hne. tauto.
  - intros e Hin H1 H2. apply list_elem_of_filter. unfold incident.
    split; [tauto|done].
  - apply lookup_delete_eq.
  - by rewrite lookup_delete_ne.
  - unfold delete_node_stmt. fold s.
    rewrite bool_decide_eq_true_2 by done.
    assert (existsb (references A) (edges s) = true) as ->; [|done].
    apply existsb_exists. exists (src, tgt, props).
    split; [by apply list_elem_of_In|].
    apply references_incident. unfold incident. simpl. tauto.
Qed.

(** *** The transaction executor *)

Lemma execute_pragma (h : gmap loc doc) (s : Store) :
  cursor_execute pragma_foreign_keys [] (MkWorld h (MkCursor false s []))
  = (Ok [], MkWorld h (MkCursor true s [(pragma_foreign_keys, [])])).
Proof. reflexivity. Qed.

(** The outcome of [atomic], by cases on what fails. *)
Lemma atomic_contract_aux {A} (io : Faults) (db_file : string) (fn : M A) (p : Process) :
  let opened := events p ++ [EvConnect db_file; EvCursor; EvPragma; EvCall] in
  match connect_fault io with
  | Some e =>
      atomic io db_file fn p
      = (Raise e, MkProcess (objects p) (disk p) (events p ++ [EvConnect db_file]))
  | None =>
      match fn (started db_file p) with
      | (Raise e, w) =>
          atomic io db_file fn p
          = (Raise e, MkProcess (heap w) (disk p) (opened ++ [EvClose]))
      | (Ok results, w) =>
          match commit_fault io with
          | None =>
              atomic io db_file fn p
              = (Ok results,
                 MkProcess (heap w) (<[db_file := working (cursor w)]> (disk p))
                   (opened ++ [EvCommit; EvClose]))
          | Some e =>
              atomic io db_file fn p
              = (Raise e, MkProcess (heap w) (disk p) (opened ++ [EvCommit; EvClose]))
          end
      end
  end.
Proof.
  unfold atomic. destruct (connect_fault io) as [e|]; [reflexivity|].
  rewrite execute_pragma. fold (started db_file p).
  destruct (fn (started db_file p)) as [[results|e] w].
  - destruct (commit_fault io); simpl; rewrite <- !app_assoc; reflexivity.
  - simpl. rewrite <- !app_assoc. reflexivity.
Qed.

(** C1. [atomic] connects once.  If connecting fails, that exception
    propagates and there is nothing to close.  Otherwise it takes a cursor,
    switches foreign keys on and calls the unit of work on that cursor;
    when the unit returns, it commits and returns the unit's result, and
    the database file then holds what the unit left; when the unit raises,
    the exception propagates, no commit is issued and the database file is
    as before.  Whenever the connection was opened, closing it is the last
    thing done, also when the commit itself fails. *)
Theorem atomic_contract {A} (io : Faults) (db_file : string) (fn : M A) (p : Process) :
  let opened := events p ++ [EvConnect db_file; EvCursor; EvPragma; EvCall] in
  match connect_fault io with
  | Some e =>
      atomic io db_file fn p
      = (Raise e, MkProcess (objects p) (disk p) (events p ++ [EvConnect db_file]))
  | None =>
      match fn (started db_file p) with
      | (Raise e, w) =>
          atomic io db_file fn p
          = (Raise e, MkProcess (heap w) (disk p) (opened ++ [EvClose]))
      | (Ok results, w) =>
          match commit_fault io with
          | None =>
              atomic io db_file fn p
              = (Ok results,
                 MkProcess (heap w) (<[db_file := working (cursor w)]> (disk p))
                   (opened ++ [EvCommit; EvClose]))
          | Some e =>
              atomic io db_file fn p
              = (Raise e, MkProcess (heap w) (disk p) (opened ++ [EvCommit; EvClose]))
          end
      end
  end.
Proof. apply atomic_contract_aux. Qed.

(** Whatever happens, the committed content of the database file is what it
    was, or what a unit of work that returned normally left behind. *)
Lemma atomic_all_or_nothing {A} (io : Faults) (db_file : string) (fn : M A)
    (p : Process) :
  let out := atomic io db_file fn p in
  (∃ results w, out.1 = Ok results ∧ fn (started db_file p) = (Ok results, w)
     ∧ disk out.2 = <[db_file := working (cursor w)]> (disk p))
  ∨ (∃ e, out.1 = Raise e ∧ disk out.2 = disk p).
Proof.
  pose proof (atomic_contract_aux io db_file fn p) as H.
  simpl in *. destruct (connect_fault io) as [e|].
  { rewrite H. right. by exists e. }
  destruct (fn (started db_file p)) as [[results|e] w].
  - destruct (commit_fault io) as [e|]; rewrite H; simpl.
    + right. by exists e.
    + left. by exists results, w.
  - rewrite H. right. by exists e.
Qed.

(** *** Search: query text and bound values *)

Lemma comprehension_pure {X Y} (f : X → M Y) (xs : list X) (w : World) :
  (∀ x w, (f x w).2 = w) → (comprehension f xs w).2 = w.
Proof.
  intros Hf. revert w. induction xs as [|x xs IH]; intros w; simpl; [done|].
  unfold_monad. specialize (Hf x w). destruct (f x w) as [[y|e] w1]; simpl in *; subst; [|done].
  specialize (IH w). destruct (comprehension f xs w) as [[ys|e] w2]; simpl in *; by subst.
Qed.

Lemma json_loads_pure (v : sqlval) (w : World) : (json_loads v w).2 = w.
Proof. by destruct v. Qed.

Lemma find_nodes_executed (where_clauses : list clause) (bindings : list param)
    (tree_query : bool) (key : option string) (w : World) :
  executed (cursor (find_nodes where_clauses bindings tree_query key w).2)
  = executed (cursor w) ++ [(_generate_query where_clauses None key tree_query, bindings)].
Proof.
  unfold find_nodes. unfold_monad.
  destruct (cursor_execute _ _ w) as [[rows|e] w1] eqn:E.
  - unfold _parse_search_results. rewrite comprehension_pure.
    + unfold cursor_execute in E. destruct (engine _ _ _ _) as [[[? ?] ?]|?];
        by inversion E.
    + intros item w'. destruct (item !! 0); [apply json_loads_pure|done].
  - unfold cursor_execute in E. destruct (engine _ _ _ _) as [[[? ?] ?]|?];
      by inversion E.
Qed.

(** C9. A search executes one statement.  Its text is [_generate_query]
    of the clauses, the key and the tree flag, in which the bindings do not
    occur; the bindings are handed to the engine as the bound parameters of
    that statement, unchanged.  Two searches of the same shape therefore
    execute the same text, whatever values they bind. *)
Theorem search_text_independent_of_bindings (where_clauses : list clause)
    (tree_query : bool) (key : option string) (bindings1 bindings2 : list param)
    (w : World) :
  let run bindings :=
    drop (length (executed (cursor w)))
      (executed (cursor (find_nodes where_clauses bindings tree_query key w).2)) in
  run bindings1 = [(_generate_query where_clauses None key tree_query, bindings1)]
  ∧ run bindings2 = [(_generate_query where_clauses None key tree_query, bindings2)]
  ∧ (run bindings1).*1 = (run bindings2).*1.
Proof.
  simpl. rewrite !find_nodes_executed, !drop_app_length. done.
Qed.

(** *** Traversal *)

(** The loop with bodies, over rows of three columns: either no row is the
    target node, and then every row is appended, in order and without
    deduplication, until the query is exhausted; or the walk appends every
    row up to and including the first row whose identifier is the
    serialised target and whose marker is ["()"], and stops there, leaving
    the rest unfetched.  The last row of an early-ended path is thus the
    target node, never an edge that touches it. *)
Lemma traverse_loop_with_bodies (target : string) (rows : list row) (path : list pyval) :
  Forall (λ r : row, length r = 3) rows →
  (Forall (λ r, ¬ is_target_node target r) rows
   ∧ _traverse_loop true target rows path = (Ok (path ++ (PyTuple <$> rows)), []))
  ∨ (∃ before r rest,
       rows = before ++ r :: rest
       ∧ Forall (λ r, ¬ is_target_node target r) before
       ∧ is_target_node target r
       ∧ _traverse_loop true target rows path
         = (Ok (path ++ (PyTuple <$> before ++ [r])), rest)).
Proof.
  intros Hrows. revert path.
  induction Hrows as [|r rows Hlen _ IH]; intros path.
  { left. split; [constructor|]. simpl. by rewrite app_nil_r. }
  destruct r as [|identifier [|obj [|document [|]]]]; try discriminate. clear Hlen.
  simpl. destruct (decide (identifier = SqlText target ∧ obj = SqlText "()"))
    as [[-> ->]|Hno].
  - right. exists [], [SqlText target; SqlText "()"; document], rows.
    split_and!; [done|constructor|by eexists|done].
  - assert (¬ is_target_node target [identifier; obj; document]) as Hr.
    { intros [doc' [= -> -> _]]. by apply Hno. }
    destruct (IH (path ++ [PyTuple [identifier; obj; document]]))
      as [[Hall ->]|(before & r & rest & -> & Hbefore & Hr' & ->)].
    + left. split; [by constructor|].
      simpl. by rewrite <- app_assoc.
    + right. exists ([identifier; obj; document] :: before), r, rest.
      split_and!; [done|by constructor|done|].
      simpl. by rewrite <- app_assoc.
Qed.

(** Identifiers only: what the loop does on every row sequence.  The path
    is extended by identifiers of the rows, in yielded order, and never
    holds one twice; either the walk ends on the serialised target, or the
    query is exhausted and every identifier it yielded is on the path. *)
Lemma traverse_identifiers (target : string) (rows : list row) (path : list pyval) :
  NoDup path →
  ∃ new rest,
    _traverse_loop false target rows path = (Ok (path ++ (PyScalar <$> new)), rest)
    ∧ NoDup (path ++ (PyScalar <$> new))
    ∧ new `sublist_of` first_column rows
    ∧ (last new = Some (SqlText target)
       ∨ (rest = []
          ∧ ∀ v, v ∈ first_column rows → PyScalar v ∈ path ++ (PyScalar <$> new))).
Proof.
  revert path. induction rows as [|r rows IH]; intros path Hnd.
  { exists [], []. rewrite app_nil_r. split_and!; [done..|].
    right. split; [done|]. intros v Hv. inversion Hv. }
  destruct r as [|v r].
  { simpl. destruct (IH path Hnd) as (new & rest & ? & ? & ? & ?).
    by exists new, rest. }
  cbn [_traverse_loop]. unfold first_column. cbn [omap head list_omap].
  fold (first_column rows). cbn [mbind option_bind].
  destruct (decide (PyScalar v ∈ path)) as [Hin|Hnotin].
  - destruct (IH path Hnd) as (new & rest & Heq & Hnd' & Hsub & Hend).
    exists new, rest. split_and!; [done|done|by apply sublist_cons|].
    destruct Hend as [?|[-> Hall]]; [by left|right]. split; [done|].
    intros x [->|Hx]%elem_of_cons; [|by apply Hall].
    apply elem_of_app. by left.
  - assert (NoDup (path ++ [PyScalar v])) as Hnd1.
    { apply NoDup_app. split_and!; [done| |apply NoDup_singleton].
      intros x Hx ->%list_elem_of_singleton. done. }
    destruct (decide (v = SqlText target)) as [->|Hne].
    + exists [SqlText target], rows. split_and!; [done|done| |by left].
      apply sublist_skip, sublist_nil_l.
    + destruct (IH _ Hnd1) as (new & rest & Heq & Hnd' & Hsub & Hend).
      exists (v :: new), rest. rewrite <- app_assoc in Heq, Hnd'.
      split_and!; [done|done|by apply sublist_skip|].
      destruct Hend as [Hlast|[-> Hall]].
      * left. destruct new; [done|]. done.
      * right. split; [done|]. intros x [->|Hx]%elem_of_cons.
        -- apply elem_of_app. right. simpl. left.
        -- specialize (Hall x Hx). by rewrite <- app_assoc in Hall.
Qed.

(** The traversal queries go to the engine as they are rendered. *)
Lemma _traverse_rows (src : ident) (tgt : option ident) (with_bodies : bool)
    (inbound outbound : option bool) (w : World) :
  let c := cursor w in
  let q := TraverseRender with_bodies inbound outbound in
  let w' := MkWorld (heap w)
              (MkCursor (foreign_keys c) (working c) (executed c ++ [(q, [PId src])])) in
  _traverse src tgt (λ b, TraverseRender b inbound outbound) with_bodies w =
    match _traverse_loop with_bodies (json_dumps_id tgt)
            (engine_select q [PId src] (working c)) [] with
    | (Ok path, _) => (Ok path, w')
    | (Raise e, _) => (Raise e, w')
    end.
Proof.
  simpl. unfold _traverse, cursor_execute. unfold_monad. simpl.
  destruct (_traverse_loop _ _ _ _) as [[path|e] rest]; reflexivity.
Qed.

(** *** Bulk operations under [atomic] *)

Lemma same_effect_all_or_nothing (bulk : M unit) (singles : list (M unit)) :
  same_effect bulk singles → all_or_nothing bulk singles.
Proof.
  intros Hsame io db_file p. simpl.
  destruct (Hsame (started db_file p)) as [Hok Hdb].
  pose proof (atomic_contract_aux io db_file bulk p) as H. simpl in H.
  destruct (connect_fault io) as [e|].
  { rewrite H. simpl. split_and!; [done|done|by left]. }
  destruct (bulk (started db_file p)) as [[[]|e] w]; simpl in *.
  - specialize (Hdb eq_refl). rewrite <- Hok, <- Hdb.
    destruct (commit_fault io) as [e|]; rewrite H; simpl.
    + split_and!; [done|done|by left].
    + split_and!; [done|done|by right].
  - rewrite H, <- Hok. simpl. split_and!; [done|done|by left].
Qed.

Lemma for_each_fmap {X Y} (f : X → Y) (body : Y → M unit) (xs : list X) :
  for_each body (f <$> xs) = for_each (λ x, body (f x)) xs.
Proof. induction xs as [|x xs IH]; [done|]. cbn. by rewrite <- IH. Qed.

Lemma for_each_ext {X} (body1 body2 : X → M unit) (xs : list X) (w : World) :
  (∀ x w, body1 x w = body2 x w) → for_each body1 xs w = for_each body2 xs w.
Proof.
  intros Hb. revert w. induction xs as [|x xs IH]; intros w; simpl; [done|].
  unfold_monad. rewrite Hb. destruct (body2 x w) as [[?|?] ?]; [apply IH|done].
Qed.

Lemma upsert_nodes_same_effect (ns : list loc) (ids : list ident) :
  same_effect (upsert_nodes ns ids) ((λ '(i, n), upsert_node i n) <$> zip ids ns).
Proof.
  intros w.
  assert (one_by_one ((λ '(i, n), upsert_node i n) <$> zip ids ns) w
          = upsert_nodes ns ids w) as ->; [|done].
  unfold one_by_one, upsert_nodes. rewrite for_each_fmap.
  apply for_each_ext. by intros [i n].
Qed.

Lemma connect_many_nodes_same_effect (sources targets : list ident)
    (properties : list doc) :
  same_effect (connect_many_nodes sources targets properties)
    ((λ '(s, t, p), connect_nodes s t p) <$> zip (zip sources targets) properties).
Proof.
  intros w.
  assert (one_by_one ((λ '(s, t, p), connect_nodes s t p)
                        <$> zip (zip sources targets) properties) w
          = connect_many_nodes sources targets properties w) as ->; [|done].
  unfold one_by_one, connect_many_nodes, cursor_executemany.
  rewrite !for_each_fmap. apply for_each_ext. by intros [[s t] p].
Qed.

Lemma cursor_execute_frame (q : sql) (params : list param) (w : World) :
  cursor_execute q params w
  = ((on_cursor q params (cursor w)).1,
     MkWorld (heap w) (on_cursor q params (cursor w)).2).
Proof.
  unfold on_cursor, cursor_execute. simpl.
  destruct (engine _ _ _ _) as [[[? ?] ?]|?]; reflexivity.
Qed.

Lemma cursor_executemany_frame (q : sql) (seq : list (list param)) (w : World) :
  cursor_executemany q seq w
  = ((many_on_cursor q seq (cursor w)).1,
     MkWorld (heap w) (many_on_cursor q seq (cursor w)).2).
Proof.
  unfold cursor_executemany. revert w.
  induction seq as [|params seq IH]; intros w; cbn [for_each many_on_cursor].
  { by destruct w. }
  unfold_monad. rewrite cursor_execute_frame.
  destruct (on_cursor q params (cursor w)) as [[rows|e] c1]; cbn [fst snd]; [|done].
  apply IH.
Qed.

Lemma comprehension_serialise (l : list (option ident * loc)) (w : World) :
  comprehension
    (λ '(i, n), d ← _set_id i n; body ← json_dumps d; mret [PJson body]) l w
  = (Ok (serialise_all l (heap w)).1,
     MkWorld (serialise_all l (heap w)).2 (cursor w)).
Proof.
  revert w. induction l as [|[i n] l IH]; intros w; simpl.
  { by destruct w. }
  unfold_monad. rewrite _set_id_spec. fold (set_id_heap i n (heap w)).
  unfold json_dumps, dict_items. simpl. rewrite IH. reflexivity.
Qed.

Lemma _insert_node_frame (identifier : option ident) (data : loc) (w : World) :
  let h1 := set_id_heap identifier data (heap w) in
  let out := on_cursor (read_sql "insert-node.sql")
               [PJson (default ∅ (h1 !! data))] (cursor w) in
  _insert_node identifier data w
  = (match out.1 with Ok _ => Ok tt | Raise e => Raise e end, MkWorld h1 out.2).
Proof.
  cbv zeta. unfold _insert_node. unfold_monad. rewrite _set_id_spec.
  fold (set_id_heap identifier data (heap w)).
  unfold json_dumps, dict_items. cbn [heap cursor]. rewrite cursor_execute_frame.
  cbn [heap cursor].
  destruct (on_cursor _ _ _) as [[rows|e] c1]; reflexivity.
Qed.

Lemma add_nodes_same_effect (ns : list loc) (ids : list (option ident)) :
  same_effect (add_nodes ns ids) ((λ '(i, n), add_node n i) <$> zip ids ns).
Proof.
  intros w. unfold add_nodes. unfold_monad. rewrite comprehension_serialise.
  rewrite cursor_executemany_frame. simpl.
  unfold one_by_one. rewrite for_each_fmap.
  cut (is_ok (many_on_cursor (read_sql "insert-node.sql")
                (serialise_all (zip ids ns) (heap w)).1 (cursor w)).1
       = is_ok (for_each (λ x, (let '(i, n) := x in add_node n i)) (zip ids ns) w).1
       ∧ (many_on_cursor (read_sql "insert-node.sql")
            (serialise_all (zip ids ns) (heap w)).1 (cursor w)).2
         = cursor (for_each (λ x, (let '(i, n) := x in add_node n i)) (zip ids ns) w).2).
  { intros [-> ->]. done. }
  generalize (zip ids ns). clear ns ids. intros l. revert w.
  induction l as [|[i n] l IH]; intros w; [done|].
  cbn [serialise_all fst snd many_on_cursor for_each]. unfold_monad.
  unfold add_node at 1 3. rewrite _insert_node_frame. cbv zeta.
  destruct (on_cursor _ _ (cursor w)) as [[rows|e] c1]; cbn [fst snd]; [|done].
  apply (IH (MkWorld (set_id_heap i n (heap w)) c1)).
Qed.

Lemma elem_of_without_edges ids es e :
  e ∈ without_edges ids es → e ∈ es ∧ ∀ i, i ∈ ids → ¬ incident i e.
Proof.
  revert es. induction ids as [|j ids IH]; intros es; simpl.
  { intros ?. split; [done|]. intros i Hi. inversion Hi. }
  intros [[Hj He]%list_elem_of_filter Hids]%IH. split; [done|].
  intros i [->|Hi]%elem_of_cons; auto.
Qed.

Lemma one_by_one_remove_node (ids : list ident) (w : World) :
  (one_by_one (remove_node <$> ids) w).1 = Ok tt
  ∧ working (cursor (one_by_one (remove_node <$> ids) w).2)
    = removed ids (working (cursor w)).
Proof.
  unfold one_by_one. rewrite for_each_fmap. revert w.
  induction ids as [|i ids IH]; intros w; cbn [for_each].
  { split; [done|]. by destruct w as [h [fk [ns es] log]]. }
  unfold_monad. rewrite remove_node_spec. cbv zeta.
  match goal with |- context [for_each _ ids ?w1] => destruct (IH w1) as [H1 H2] end.
  split; [exact H1|]. rewrite H2. reflexivity.
Qed.

Lemma delete_edges_many (ids : list ident) (w : World) :
  ∃ log,
    cursor_executemany (read_sql "delete-edge.sql")
      ((λ identifier, [PId identifier; PId identifier]) <$> ids) w
    = (Ok tt,
       MkWorld (heap w)
         (MkCursor (foreign_keys (cursor w))
            (MkStore (nodes (working (cursor w)))
               (without_edges ids (edges (working (cursor w)))))
            log)).
Proof.
  unfold cursor_executemany. rewrite for_each_fmap. unfold_monad. revert w.
  induction ids as [|i ids IH]; intros w; cbn [for_each].
  { exists (executed (cursor w)). by destruct w as [h [fk [ns es] log]]. }
  unfold_monad. unfold cursor_execute at 1. simpl.
  match goal with |- context [for_each _ ids ?w1] => destruct (IH w1) as [log Hlog] end.
  exists log. exact Hlog.
Qed.

Lemma delete_nodes_many (ids : list ident) (w : World) :
  (∀ i, i ∈ ids → existsb (references i) (edges (working (cursor w))) = false) →
  ∃ log,
    cursor_executemany (read_sql "delete-node.sql")
      ((λ identifier, [PId identifier]) <$> ids) w
    = (Ok tt,
       MkWorld (heap w)
         (MkCursor (foreign_keys (cursor w))
            (MkStore (foldl (λ ns i, delete i ns) (nodes (working (cursor w))) ids)
               (edges (working (cursor w))))
            log)).
Proof.
  unfold cursor_executemany. rewrite for_each_fmap. unfold_monad. revert w.
  induction ids as [|i ids IH]; intros w Hfree; cbn [for_each].
  { exists (executed (cursor w)). by destruct w as [h [fk [ns es] log]]. }
  unfold_monad. unfold cursor_execute at 1. cbn [engine read_sql].
  rewrite run_file_delete_node. unfold delete_node_stmt.
  rewrite Hfree, andb_false_r by (by left). cbn [heap cursor working].
  match goal with |- context [for_each _ ids ?w1] => destruct (IH w1) as [log Hlog] end.
  { intros j Hj. apply Hfree. by right. }
  exists log. exact Hlog.
Qed.

Lemma remove_nodes_same_effect (identifiers : list ident) :
  same_effect (remove_nodes identifiers) (remove_node <$> identifiers).
Proof.
  intros w. destruct (one_by_one_remove_node identifiers w) as [-> ->].
  unfold remove_nodes. unfold_monad.
  destruct (delete_edges_many identifiers w) as [log1 ->].
  match goal with |- context [cursor_executemany _ _ ?w1] =>
    destruct (delete_nodes_many identifiers w1) as [log2 ->] end.
  { intros i Hi. simpl. apply not_true_is_false. rewrite existsb_exists.
    intros (e & [_ He]%list_elem_of_In%elem_of_without_edges & Href%references_incident).
    by apply (He i). }
  done.
Qed.

(** C8. Each bulk operation (bulk node insert, bulk upsert, bulk connect,
    bulk remove), run through [atomic], is all or nothing with respect to
    its elements, the single-row operations applied one by one in the same
    transaction: when one of them fails, for instance an edge of a bulk
    connect that violates a foreign key, the call raises and the database
    file is as it was before the call; when none fails and the connection
    works, the call returns and the file holds the result of all of them;
    in no case is anything else committed. *)
Theorem bulk_operations_all_or_nothing :
  (∀ nodes ids,
     all_or_nothing (add_nodes nodes ids) ((λ '(i, n), add_node n i) <$> zip ids nodes))
  ∧ (∀ nodes ids,
     all_or_nothing (upsert_nodes nodes ids)
       ((λ '(i, n), upsert_node i n) <$> zip ids nodes))
  ∧ (∀ sources targets properties,
     all_or_nothing (connect_many_nodes sources targets properties)
       ((λ '(s, t, p), connect_nodes s t p) <$> zip (zip sources targets) properties))
  ∧ (∀ identifiers,
     all_or_nothing (remove_nodes identifiers) (remove_node <$> identifiers)).
Proof.
  split_and!; intros; apply same_effect_all_or_nothing.
  - apply add_nodes_same_effect.
  - apply upsert_nodes_same_effect.
  - apply connect_many_nodes_same_effect.
  - apply remove_nodes_same_effect.
Qed.

End Database.

(** * Concrete runs *)




Lemma upsert_node_twice_witness :
  heap (world_with new_prop) !! 1%positive = Some new_prop
  ∧ working (cursor (upsert_node no_rows (IdStr "3") 1%positive
                       (upsert_node no_rows (IdStr "3") 1%positive
                          (world_with new_prop)).2).2)
    = working (cursor (upsert_node no_rows (IdStr "3") 1%positive
                         (world_with new_prop)).2).
Proof.
  split; [reflexivity|].
  apply (upsert_node_twice no_rows (IdStr "3") 1%positive new_prop
           (world_with new_prop) eq_refl).
Defined.

Lemma remove_node_cascades_witness :
  IdInt 2 ≠ IdStr "3"
  ∧ (let out := remove_node no_rows (IdInt 2) (world_with ∅) in
     out.1 = Ok tt
     ∧ edges (working (cursor out.2)) = []
     ∧ nodes (working (cursor out.2)) !! IdStr "3" = Some jobs).
Proof.
  split; [discriminate|].
  destruct (remove_node_cascades no_rows (IdInt 2) (IdStr "3") (IdInt 2) (IdStr "3")
              jobs ∅ (world_with ∅)) as (Hok & _ & _ & _ & _ & HB & _).
  - discriminate.
  - by eexists.
  - reflexivity.
  - apply list_elem_of_here.
  - by left.
  - split_and!; [exact Hok|reflexivity|exact HB].
Defined.

Lemma traverse_loop_with_bodies_witness :
  let rows := [[SqlText "2"; SqlText "()"; SqlText "{}"];
               [SqlText "3"; SqlText "->"; SqlText "{}"];
               [SqlText "3"; SqlText "()"; SqlText "{}"];
               [SqlText "1"; SqlText "->"; SqlText "{}"]] in
  Forall (λ r : row, length r = 3) rows
  ∧ _traverse_loop true "3" rows [] = (Ok (PyTuple <$> take 3 rows), drop 3 rows).
Proof.
  split; [repeat constructor|].
  destruct (traverse_loop_with_bodies "3"
              [[SqlText "2"; SqlText "()"; SqlText "{}"];
               [SqlText "3"; SqlText "->"; SqlText "{}"];
               [SqlText "3"; SqlText "()"; SqlText "{}"];
               [SqlText "1"; SqlText "->"; SqlText "{}"]] [])
    as [[_ H]|(before & r & rest & _ & _ & _ & H)];
    [repeat constructor|vm_compute in H; discriminate H|].
  reflexivity.
Defined.

(** [json.dumps] of the three kinds of target. *)
Example json_dumps_id_int : json_dumps_id (Some (IdInt (-35))) = "-35".
Proof. reflexivity. Qed.

Example json_dumps_id_str :
  json_dumps_id (Some (IdStr "3")) = String dquote (String "3" (String dquote EmptyString)).
Proof. reflexivity. Qed.

Example json_dumps_id_newline :
  json_dumps_id (Some (IdStr (String (Ascii.ascii_of_nat 10) EmptyString)))
  = String dquote (String "\" (String "n" (String dquote EmptyString))).
Proof. reflexivity. Qed.

(** C6. In identifiers-only mode a walk without target is specified to
    consume the neighbour query to exhaustion.  The code compares every
    appended identifier with [json.dumps(tgt)], which is ["null"] when no
    target is given: over the rows ["2"], ["null"], ["5"] the walk ends on
    ["null"] and the row of ["5"] is never fetched.  (What holds on every
    row sequence is [traverse_identifiers].) *)
Theorem traverse_without_target_stops_at_null :
  let rows := [[SqlText "2"]; [SqlText "null"]; [SqlText "5"]] in
  json_dumps_id None = "null"
  ∧ _traverse_loop false (json_dumps_id None) rows []
    = (Ok [PyScalar (SqlText "2"); PyScalar (SqlText "null")], [[SqlText "5"]])
  ∧ (traverse (yields rows) (MkFaults None None) "graph.db" (IdStr "2") None
       find_neighbors false (MkProcess ∅ ∅ [])).1
    = Ok [PyScalar (SqlText "2"); PyScalar (SqlText "null")].
Proof. vm_compute. done. Qed.

(** A bulk connect in which the second edge names a node that is not
    stored: the call raises and the database file keeps its one edge. *)
Example connect_many_nodes_rolls_back :
  let p := MkProcess ∅ {[ "graph.db" := two_nodes ]} [] in
  let out := atomic no_rows (MkFaults None None) "graph.db"
               (connect_many_nodes no_rows [IdStr "3"; IdStr "3"]
                  [IdInt 2; IdStr "nonexistent"] [∅; ∅]) p in
  out.1 = Raise (IntegrityError "FOREIGN KEY constraint failed")
  ∧ disk out.2 = disk p.
Proof. vm_compute. done. Qed.

(** * The public interface *)

(** A connection that neither fails to open nor fails to commit. *)
Definition no_faults : Faults := MkFaults None None.

(** [base.py]: the methods of [GraphDB] that hand identifiers and documents
    straight to [atomic]; each opens its own connection. *)
Module GraphDB.

Record GraphDB := MkGraphDB {
  db_file : string;
  dot_file : string
}.

Section Methods.

Variable engine_select : sql → list param → Store → list row.
Variable io : Faults.

Definition find_node (self : GraphDB) (identifier : ident)
    : Process → result doc * Process :=
  atomic engine_select io (db_file self) (find_node engine_select identifier).

Definition find_nodes (self : GraphDB) (where_clauses : list clause)
    (bindings : list param) (tree_query : bool) (key : option string)
    : Process → result (list doc) * Process :=
  atomic engine_select io (db_file self)
    (find_nodes engine_select where_clauses bindings tree_query key).

Definition connect_nodes (self : GraphDB) (source_id target_id : ident)
    (properties : doc) : Process → result unit * Process :=
  atomic engine_select io (db_file self)
    (connect_nodes engine_select source_id target_id properties).

Definition connect_many_nodes (self : GraphDB) (sources targets : list ident)
    (properties : list doc) : Process → result unit * Process :=
  atomic engine_select io (db_file self)
    (connect_many_nodes engine_select sources targets properties).

End Methods.

End GraphDB.

(** A program that holds one caller document and the database file
    ["graph.db"] with the content [two_nodes], and a [GraphDB] on it. *)
Definition apple : Process :=
  MkProcess {[ 1%positive := new_prop ]} {[ "graph.db" := two_nodes ]} [].

Definition graph : GraphDB.GraphDB := GraphDB.MkGraphDB "graph.db" "graph.dot".

(** The node relation has a row for the identifier, and the document of
    that row has [body["id"]] equal to it. *)
Definition stored_under (i : ident) (s : Store) : Prop :=
  ∃ body, nodes s !! i = Some body ∧ carries_id i body.

(** * Further properties *)

Ltac unfold_monad :=
  unfold mbind, M_bind, mret, M_ret, raise in *.

Section Further.

Variable sel : sql → list param → Store → list row.

(** ** One call of [atomic] after the other *)

Lemma atomic_no_faults {A} (f : string) (fn : M A) (p : Process) :
  atomic sel no_faults f fn p =
    match fn (started f p) with
    | (Ok results, w) =>
        (Ok results,
         MkProcess (heap w) (<[f := working (cursor w)]> (disk p))
           ((events p ++ [EvConnect f; EvCursor; EvPragma; EvCall]) ++
              [EvCommit; EvClose]))
    | (Raise e, w) =>
        (Raise e,
         MkProcess (heap w) (disk p)
           ((events p ++ [EvConnect f; EvCursor; EvPragma; EvCall]) ++ [EvClose]))
    end.
Proof.
  pose proof (atomic_contract_aux sel no_faults f fn p) as H. simpl in H.
  destruct (fn (started f p)) as [[results|e] w]; exact H.
Qed.

Lemma find_node_started (f : string) (i : ident) (p : Process) :
  ∃ log,
    find_node sel i (started f p)
    = (Ok (default ∅ (nodes (disk p !!! f) !! i)),
       MkWorld (objects p) (MkCursor true (disk p !!! f) log)).
Proof. eexists. rewrite find_node_spec. reflexivity. Qed.

(** X1. A lookup through [GraphDB.find_node] of an identifier that can be
    bound does not raise on a working connection: it returns the stored
    document, or the empty dictionary when no node has that identifier;
    the caller's dictionaries and the content of every database file are
    as before. *)
Theorem find_node_returns_stored_or_empty (self : GraphDB.GraphDB) (identifier : ident)
    (p : Process) :
  bindable identifier →
  let out := GraphDB.find_node sel no_faults self identifier p in
  out.1 = Ok (default ∅ (nodes (disk p !!! GraphDB.db_file self) !! identifier))
  ∧ objects out.2 = objects p
  ∧ ∀ f, disk out.2 !!! f = disk p !!! f.
Proof.
  intros _. unfold GraphDB.find_node. rewrite atomic_no_faults.
  destruct (find_node_started (GraphDB.db_file self) identifier p) as [log ->].
  simpl. split_and!; [done..|]. intros f.
  destruct (decide (GraphDB.db_file self = f)) as [<-|Hne].
  - by rewrite lookup_total_insert_eq.
  - by rewrite lookup_total_insert_ne.
Qed.

(** X2. Insert, then look up, each in its own transaction: when the
    identifier can be bound and no node has it, [add_node] succeeds and a
    later [find_node] returns the caller's document with ["id"] set to the
    identifier. *)
Theorem add_node_then_find_node (f : string) (i : ident) (data : loc) (d : doc)
    (p : Process) :
  objects p !! data = Some d →
  bindable i →
  nodes (disk p !!! f) !! i = None →
  let added := atomic sel no_faults f (add_node sel data (Some i)) p in
  let found := atomic sel no_faults f (find_node sel i) added.2 in
  added.1 = Ok tt ∧ found.1 = Ok (<["id" := ident_value i]> d).
Proof.
  intros Hd _ Habs. simpl. rewrite (atomic_no_faults f (add_node sel data (Some i))).
  unfold add_node. rewrite (_insert_node_live sel i data d) by done.
  simpl. rewrite Habs. simpl. split; [done|].
  rewrite atomic_no_faults.
  match goal with |- context [started f ?q] =>
    destruct (find_node_started f i q) as [log ->] end.
  simpl. rewrite lookup_total_insert_eq. simpl. by rewrite lookup_insert_eq.
Qed.

(** X3. Inserting under an identifier that is already stored raises the
    uniqueness error and commits nothing; the caller's dictionary has
    nevertheless been given the ["id"] item, which no rollback undoes. *)
Theorem add_node_duplicate_is_rejected (io : Faults) (f : string) (i : ident)
    (data : loc) (d C : doc) (p : Process) :
  connect_fault io = None →
  objects p !! data = Some d →
  nodes (disk p !!! f) !! i = Some C →
  let out := atomic sel io f (add_node sel data (Some i)) p in
  out.1 = Raise (IntegrityError "UNIQUE constraint failed: nodes.id")
  ∧ disk out.2 = disk p
  ∧ objects out.2 !! data = Some (<["id" := ident_value i]> d).
Proof.
  intros Hio Hd HC. simpl. unfold add_node.
  pose proof (atomic_contract_aux sel io f (_insert_node sel (Some i) data) p) as H.
  simpl in H. rewrite Hio in H.
  rewrite (_insert_node_live sel i data d) in H by done.
  simpl in H. rewrite HC in H. rewrite H. simpl.
  split_and!; [done..|]. apply lookup_insert_eq.
Qed.

(** ** Insert without identifier *)

Lemma doc_id_of_lookup (d : doc) (j : ident) :
  d !! "id" = Some (ident_value j) → doc_id d = Some j.
Proof. intros H. unfold doc_id. rewrite H. by destruct j. Qed.

(** X4. Without identifier, [add_node] files the document under the
    document's own ["id"] and does not write to the caller's document.
    For a document whose ["id"] is a string or an integer that can be
    bound: when that identifier is not stored, the insert succeeds, the
    row holds the document as given and a lookup by that identifier
    returns it; when it is stored, the insert raises the uniqueness error
    and the database is unchanged. *)
Theorem add_node_without_identifier (data : loc) (d : doc) (j : ident) (w : World) :
  heap w !! data = Some d →
  d !! "id" = Some (ident_value j) →
  bindable j →
  let s := working (cursor w) in
  let out := add_node sel data None w in
  heap out.2 = heap w
  ∧ (nodes s !! j = None →
     out.1 = Ok tt
     ∧ working (cursor out.2) = MkStore (<[j := d]> (nodes s)) (edges s)
     ∧ (find_node sel j out.2).1 = Ok d)
  ∧ (is_Some (nodes s !! j) →
     out.1 = Raise (IntegrityError "UNIQUE constraint failed: nodes.id")
     ∧ working (cursor out.2) = s).
Proof.
  intros Hd Hid _. simpl. unfold add_node. rewrite _insert_node_spec. simpl.
  rewrite Hd. simpl. unfold insert_node_stmt.
  rewrite (doc_id_of_lookup d j Hid).
  destruct (nodes (working (cursor w)) !! j) eqn:Hj; simpl.
  - split_and!; [done|done|]. by intros _.
  - split_and!; [done| |by intros [? ?]].
    intros _. split_and!; [done..|]. rewrite find_node_spec. simpl.
    by rewrite lookup_insert_eq.
Qed.

(** ** Upsert: outcome, round trip, no failure *)

Lemma merged_empty (i : ident) (d : doc) :
  merged i d ∅ = <["id" := ident_value i]> d.
Proof. unfold merged. by rewrite (right_id_L ∅ (∪)). Qed.

(** What [upsert_node] does in a world where the caller's document is live:
    it fails only over a stored empty document, and otherwise stores the
    merge of the document into what was there. *)
Lemma upsert_node_outcome (i : ident) (data : loc) (d : doc) (w : World) :
  heap w !! data = Some d →
  let s := working (cursor w) in
  let out := upsert_node sel i data w in
  if decide (nodes s !! i = Some ∅) then
    is_ok out.1 = false ∧ working (cursor out.2) = s
  else
    out.1 = Ok tt
    ∧ working (cursor out.2)
      = MkStore (<[i := merged i d (default ∅ (nodes s !! i))]> (nodes s)) (edges s)
    ∧ foreign_keys (cursor out.2) = foreign_keys (cursor w)
    ∧ ∀ l, is_Some (heap w !! l) → is_Some (heap out.2 !! l).
Proof.
  intros Hd. simpl. unfold upsert_node.
  destruct (nodes (working (cursor w)) !! i) as [C|] eqn:Hcur.
  - destruct (decide (C = ∅)) as [->|Hne].
    + rewrite decide_True by done.
      rewrite _upsert_node_absent by (by rewrite Hcur).
      rewrite find_node_spec. simpl.
      rewrite (_insert_node_live sel i data d) by done. simpl. by rewrite Hcur.
    + rewrite decide_False by congruence.
      rewrite (_upsert_node_present sel i data w C) by done. simpl. rewrite Hd.
      split_and!; [done..|]. intros l Hl. rewrite lookup_insert_is_Some'. by right.
  - rewrite decide_False by done.
    rewrite _upsert_node_absent by (by rewrite Hcur).
    rewrite find_node_spec. simpl.
    rewrite (_insert_node_live sel i data d) by done. simpl. rewrite Hcur.
    simpl. rewrite merged_empty. split_and!; [done..|].
    intros l Hl. rewrite lookup_insert_is_Some'. by right.
Qed.

(** X5. Upsert, then look up, each in its own transaction: when the upsert
    returned, the lookup finds a document that carries the identifier,
    holds every other item of the upserted document, and keeps the items
    of the previous document whose keys the upserted one does not have. *)
Theorem upsert_node_then_find_node (f : string) (i : ident) (data : loc) (d : doc)
    (p : Process) :
  objects p !! data = Some d →
  let previous := default ∅ (nodes (disk p !!! f) !! i) in
  let upserted := atomic sel no_faults f (upsert_node sel i data) p in
  let found := atomic sel no_faults f (find_node sel i) upserted.2 in
  upserted.1 = Ok tt →
  ∃ stored,
    found.1 = Ok stored
    ∧ carries_id i stored
    ∧ (∀ k v, k ≠ "id" → d !! k = Some v → stored !! k = Some v)
    ∧ (∀ k, k ≠ "id" → d !! k = None → stored !! k = previous !! k).
Proof.
  intros Hd. simpl. rewrite (atomic_no_faults f (upsert_node sel i data)).
  pose proof (upsert_node_outcome i data d (started f p) Hd) as H. simpl in H.
  destruct (upsert_node sel i data (started f p)) as [[[]|e] w] eqn:E;
    simpl in *; [|done].
  intros _. destruct (decide (nodes (disk p !!! f) !! i = Some ∅)) as [|_].
  { by destruct H. }
  destruct H as (_ & Hs & _). rewrite atomic_no_faults.
  match goal with |- context [started f ?q] =>
    destruct (find_node_started f i q) as [log ->] end.
  simpl. rewrite lookup_total_insert_eq, Hs. simpl. rewrite lookup_insert_eq.
  simpl. eexists. split; [done|]. unfold carries_id, merged. split_and!.
  - apply lookup_insert_eq.
  - intros k v Hk Hv. rewrite lookup_insert_ne by done.
    by rewrite lookup_union, Hv, union_Some_l.
  - intros k Hk Hv. rewrite lookup_insert_ne by done.
    by rewrite lookup_union, Hv, (left_id_L None _).
Qed.

(** X6. Over a database whose documents all carry their identifier, bulk
    upsert of live documents under identifiers that can be bound does not
    raise, whether or not the identifiers are stored, and the database it
    leaves is again one whose documents all carry their identifier. *)
Theorem upsert_nodes_never_fails (ns : list loc) (ids : list ident) (w : World) :
  Forall bindable ids →
  Forall (λ l, is_Some (heap w !! l)) ns →
  map_Forall carries_id (nodes (working (cursor w))) →
  let out := upsert_nodes sel ns ids w in
  out.1 = Ok tt ∧ map_Forall carries_id (nodes (working (cursor out.2))).
Proof.
  intros _. simpl. unfold upsert_nodes. revert ns w.
  induction ids as [|i ids IH]; intros [|n ns] w Hlive Hwf; try done.
  apply Forall_cons in Hlive as [[d Hd] Hlive].
  cbn [zip_with for_each]. unfold_monad.
  pose proof (upsert_node_outcome i n d w Hd) as H. simpl in H.
  pose proof (carry_upsert_node sel i n w) as Hcarry.
  unfold upsert_node in H.
  destruct (_upsert_node sel i n w) as [[[]|e] w1] eqn:E; simpl in *.
  - apply IH.
    + destruct (decide (_ = Some ∅)); [by destruct H|].
      destruct H as (_ & _ & _ & Hkeep).
      eapply Forall_impl; [exact Hlive|]. intros l. apply Hkeep.
    + intros j b Hj. destruct (Hcarry j b Hj) as [Hold|?]; [|done].
      by apply (Hwf j).
  - destruct (decide (nodes (working (cursor w)) !! i = Some ∅)) as [Hempty|];
      [|by destruct H].
    by specialize (Hwf i ∅ Hempty).
Qed.

(** ** Bulk removal *)

Lemma lookup_foldl_delete (ids : list ident) (ns : gmap ident doc) (j : ident) :
  foldl (λ ns i, delete i ns) ns ids !! j
  = if decide (j ∈ ids) then None else ns !! j.
Proof.
  revert ns. induction ids as [|i ids IH]; intros ns; cbn [foldl].
  { case_decide as H; [by apply elem_of_nil in H|done]. }
  rewrite IH. destruct (decide (j ∈ ids)) as [Hin|Hnotin].
  - rewrite decide_True; [done|]. by right.
  - destruct (decide (i = j)) as [->|Hne].
    + rewrite decide_True by left. apply lookup_delete_eq.
    + rewrite decide_False.
      * by apply lookup_delete_ne.
      * intros [->|?]%elem_of_cons; done.
Qed.

Lemma elem_of_without_edges_2 ids es e :
  e ∈ es → (∀ i, i ∈ ids → ¬ incident i e) → e ∈ without_edges ids es.
Proof.
  revert es. induction ids as [|j ids IH]; intros es Hin Hfree; simpl; [done|].
  apply IH.
  - apply list_elem_of_filter. split; [|done]. apply Hfree. left.
  - intros i Hi. apply Hfree. by right.
Qed.

Lemma cursor_executemany_heap (q : sql) (seq : list (list param)) (w : World) :
  heap (cursor_executemany sel q seq w).2 = heap w.
Proof. by rewrite cursor_executemany_frame. Qed.

(** X7. [remove_nodes] of identifiers that can be bound does not raise,
    whether or not they are stored and whether or not one is listed twice;
    the empty list is accepted too.  Afterwards none of the
    listed identifiers is stored and no edge has one of them as source or
    target; every other node and every other edge is as before, and so are
    the caller's dictionaries. *)
Theorem remove_nodes_removes_exactly (identifiers : list ident) (w : World) :
  Forall bindable identifiers →
  let s := working (cursor w) in
  let out := remove_nodes sel identifiers w in
  let s' := working (cursor out.2) in
  out.1 = Ok tt
  ∧ heap out.2 = heap w
  ∧ (∀ j, nodes s' !! j = if decide (j ∈ identifiers) then None else nodes s !! j)
  ∧ (∀ e, e ∈ edges s' ↔ e ∈ edges s ∧ ∀ i, i ∈ identifiers → ¬ incident i e).
Proof.
  intros _. simpl.
  destruct (remove_nodes_same_effect sel identifiers w) as [Hok Hdb].
  destruct (one_by_one_remove_node sel identifiers w) as [Hone Hremoved].
  rewrite Hone in Hok. simpl in Hok. specialize (Hdb Hok).
  rewrite Hdb, Hremoved. split_and!.
  - destruct (remove_nodes sel identifiers w) as [[[]|e] w1]; done.
  - unfold remove_nodes. unfold_monad.
    match goal with |- context [cursor_executemany sel ?q ?l w] =>
      pose proof (cursor_executemany_heap q l w) as H1;
      destruct (cursor_executemany sel q l w) as [[[]|e] w1] end;
      simpl in *; [|done].
    rewrite <- H1. apply cursor_executemany_heap.
  - intros j. apply lookup_foldl_delete.
  - intros e. split.
    + apply elem_of_without_edges.
    + intros [? ?]. by apply elem_of_without_edges_2.
Qed.

(** ** Connecting: referential integrity *)

Lemma connect_nodes_spec (s t : ident) (props : doc) (w : World) :
  let c := cursor w in
  let log := executed c ++ [(read_sql "insert-edge.sql", [PId s; PId t; PJson props])] in
  connect_nodes sel s t props w =
    if foreign_keys c && negb (bool_decide (is_Some (nodes (working c) !! s)) &&
                               bool_decide (is_Some (nodes (working c) !! t)))
    then (Raise (IntegrityError "FOREIGN KEY constraint failed"),
          MkWorld (heap w) (MkCursor (foreign_keys c) (working c) log))
    else (Ok tt,
          MkWorld (heap w)
            (MkCursor (foreign_keys c)
               (MkStore (nodes (working c)) (edges (working c) ++ [(s, t, props)]))
               log)).
Proof.
  simpl. unfold connect_nodes, cursor_execute. unfold_monad. cbn [engine read_sql].
  rewrite run_file_insert_edge. unfold insert_edge_stmt.
  destruct (foreign_keys (cursor w) && _); reflexivity.
Qed.

(** X8. [GraphDB.connect_nodes] enforces referential integrity, because
    [atomic] switches foreign keys on before the unit runs: when the
    source or the target, both identifiers that can be bound, is not a
    stored node, the call raises the
    foreign-key error and the database file keeps its content.  On a
    cursor whose foreign keys are off the same statement is accepted. *)
Theorem connect_nodes_referential_integrity (io : Faults) (self : GraphDB.GraphDB)
    (s t : ident) (props : doc) (p : Process) :
  connect_fault io = None →
  bindable s → bindable t →
  let db := disk p !!! GraphDB.db_file self in
  nodes db !! s = None ∨ nodes db !! t = None →
  let out := GraphDB.connect_nodes sel io self s t props p in
  out.1 = Raise (IntegrityError "FOREIGN KEY constraint failed")
  ∧ disk out.2 = disk p
  ∧ (connect_nodes sel s t props (MkWorld (objects p) (MkCursor false db []))).1
    = Ok tt.
Proof.
  intros Hio _ _ db Hmissing.
  assert ((connect_nodes sel s t props
             (MkWorld (objects p) (MkCursor false db []))).1 = Ok tt) as Hoff.
  { by rewrite connect_nodes_spec. }
  simpl. unfold GraphDB.connect_nodes.
  pose proof (atomic_contract_aux sel io (GraphDB.db_file self)
                (connect_nodes sel s t props) p) as H.
  simpl in H. rewrite Hio, connect_nodes_spec in H. simpl in H.
  assert (bool_decide (is_Some (nodes db !! s))
          && bool_decide (is_Some (nodes db !! t)) = false) as Hb.
  { apply andb_false_iff.
    destruct Hmissing as [Hm|Hm]; [left|right];
      apply bool_decide_eq_false; rewrite Hm; by intros [? ?]. }
  fold db in H. rewrite Hb in H. simpl in H. rewrite H.
  split_and!; [done|done|exact Hoff].
Qed.


(** ** Bulk operations over lists of different lengths *)

(** X10. The bulk operations pair their lists with [zip]: what lies beyond
    the length of the shortest list is ignored without any error; in
    particular, with an empty list nothing is executed and the call
    returns. *)
Theorem bulk_operations_ignore_unpaired_elements :
  (∀ ns ids,
     let n := length ids `min` length ns in
     add_nodes sel (take n ns) (take n ids) = add_nodes sel ns ids)
  ∧ (∀ ns ids,
     let n := length ids `min` length ns in
     upsert_nodes sel (take n ns) (take n ids) = upsert_nodes sel ns ids)
  ∧ (∀ sources targets properties,
     let n := (length sources `min` length targets) `min` length properties in
     connect_many_nodes sel (take n sources) (take n targets) (take n properties)
     = connect_many_nodes sel sources targets properties)
  ∧ (∀ ns w, add_nodes sel ns [] w = (Ok tt, w))
  ∧ (∀ ns w, upsert_nodes sel ns [] w = (Ok tt, w))
  ∧ (∀ sources targets w, connect_many_nodes sel sources targets [] w = (Ok tt, w)).
Proof.
  split_and!.
  - intros ns ids n. unfold add_nodes.
    by rewrite (zip_with_take_both' pair n n ids ns) by done.
  - intros ns ids n. unfold upsert_nodes.
    by rewrite (zip_with_take_both' pair n n ids ns) by done.
  - intros sources targets properties n. unfold connect_many_nodes.
    rewrite <- (zip_with_take pair n sources targets).
    rewrite (zip_with_take_both' pair n n (zip sources targets) properties);
      [done|rewrite length_zip_with; lia..].
  - intros ns w. by destruct w.
  - intros ns w. by destruct w.
  - intros sources targets w. unfold connect_many_nodes.
    rewrite zip_with_nil_r. by destruct w.
Qed.

(** ** A batch that names an identifier twice *)

Lemma add_node_stored_after (i : ident) (n : loc) (w : World) :
  (add_node sel n (Some i) w).1 = Ok tt →
  is_Some (nodes (working (cursor (add_node sel n (Some i) w).2)) !! i).
Proof.
  unfold add_node. rewrite _insert_node_spec. simpl.
  rewrite lookup_alter_eq. destruct (heap w !! n) as [d|]; simpl.
  - rewrite insert_node_stmt_set_id.
    destruct (nodes (working (cursor w)) !! i); simpl; [done|].
    intros _. rewrite lookup_insert_eq. by eexists.
  - done.
Qed.

Lemma add_node_keeps_stored (o : option ident) (n : loc) (i : ident) (w : World) :
  is_Some (nodes (working (cursor w)) !! i) →
  is_Some (nodes (working (cursor (add_node sel n o w).2)) !! i).
Proof.
  intros Hi. unfold add_node. rewrite _insert_node_spec. simpl.
  unfold insert_node_stmt. destruct (doc_id _) as [j|]; simpl; [|done].
  destruct (nodes (working (cursor w)) !! j); simpl; [done|].
  rewrite lookup_insert_is_Some'. by right.
Qed.

Lemma add_node_stored_fails (i : ident) (n : loc) (w : World) :
  is_Some (nodes (working (cursor w)) !! i) →
  is_ok (add_node sel n (Some i) w).1 = false.
Proof.
  intros [C HC]. unfold add_node. rewrite _insert_node_spec. simpl.
  rewrite lookup_alter_eq. destruct (heap w !! n) as [d|]; simpl.
  - rewrite insert_node_stmt_set_id, HC. done.
  - done.
Qed.

Lemma add_each_stored_fails (i : ident) (l : list (option ident * loc)) (k : nat)
    (n : loc) (w : World) :
  l !! k = Some (Some i, n) →
  is_Some (nodes (working (cursor w)) !! i) →
  is_ok (for_each (λ '(i, n), add_node sel n i) l w).1 = false.
Proof.
  revert k w. induction l as [|[o m] l IH]; intros k w Hk Hi; [done|].
  cbn [for_each]. unfold_monad.
  destruct k as [|k]; simpl in Hk.
  - injection Hk as -> ->. pose proof (add_node_stored_fails i n w Hi) as H.
    by destruct (add_node sel n (Some i) w) as [[[]|e] w1].
  - pose proof (add_node_keeps_stored o m i w Hi) as H.
    destruct (add_node sel m o w) as [[[]|e] w1]; [|done].
    by apply (IH k).
Qed.

Lemma add_each_repeated_fails (i : ident) (l : list (option ident * loc))
    (j k : nat) (nj nk : loc) (w : World) :
  j < k →
  l !! j = Some (Some i, nj) →
  l !! k = Some (Some i, nk) →
  is_ok (for_each (λ '(i, n), add_node sel n i) l w).1 = false.
Proof.
  revert j k w. induction l as [|[o m] l IH]; intros j k w Hjk Hj Hk; [done|].
  cbn [for_each]. unfold_monad.
  destruct k as [|k]; [lia|]. simpl in Hk.
  destruct j as [|j]; simpl in Hj.
  - injection Hj as -> ->. pose proof (add_node_stored_after i nj w) as H.
    destruct (add_node sel nj (Some i) w) as [[[]|e] w1]; [|done].
    apply (add_each_stored_fails i l k nk); [done|by apply H].
  - destruct (add_node sel m o w) as [[[]|e] w1]; [|done].
    apply (IH j k); [lia|done..].
Qed.

(** X11. A bulk insert that gives the same identifier to two of its
    documents raises, and through [atomic] none of its rows is committed,
    not even those that come before the repetition. *)
Theorem add_nodes_repeated_identifier_rolls_back (io : Faults) (f : string)
    (ns : list loc) (ids : list (option ident)) (i : ident) (j k : nat)
    (p : Process) :
  j < k →
  k < length ns →
  ids !! j = Some (Some i) →
  ids !! k = Some (Some i) →
  let out := atomic sel io f (add_nodes sel ns ids) p in
  is_ok out.1 = false ∧ disk out.2 = disk p.
Proof.
  intros Hjk Hk Hj Hk'. simpl.
  destruct (lookup_lt_is_Some_2 ns j ltac:(lia)) as [nj Hnj].
  destruct (lookup_lt_is_Some_2 ns k Hk) as [nk Hnk].
  pose proof (same_effect_all_or_nothing sel _ _ (add_nodes_same_effect sel ns ids)
                io f p) as (Hfail & _ & _).
  simpl in Hfail. apply Hfail. unfold one_by_one. rewrite for_each_fmap.
  apply (add_each_repeated_fails i (zip ids ns) j k nj nk); [done|..].
  - rewrite lookup_zip_with, Hj. simpl. by rewrite Hnj.
  - rewrite lookup_zip_with, Hk'. simpl. by rewrite Hnk.
Qed.

(** ** Traversal: what a walk returns *)


Lemma traverse_loop_reaches (target : string) (rows : list row) (path : list pyval) :
  SqlText target ∈ first_column rows →
  PyScalar (SqlText target) ∉ path →
  ∃ new rest,
    _traverse_loop false target rows path = (Ok (path ++ (PyScalar <$> new)), rest)
    ∧ last new = Some (SqlText target).
Proof.
  revert path. induction rows as [|r rows IH]; intros path Hin Hnotin.
  { inversion Hin. }
  destruct r as [|v r]; [by apply IH|].
  unfold first_column in Hin. cbn [omap head list_omap mbind option_bind] in Hin.
  fold (first_column rows) in Hin. cbn [_traverse_loop].
  destruct (decide (PyScalar v ∈ path)) as [Hv|Hv].
  - apply IH; [|done]. apply elem_of_cons in Hin as [<-|?]; done.
  - destruct (decide (v = SqlText target)) as [->|Hne].
    + by exists [SqlText target], rows.
    + destruct (IH (path ++ [PyScalar v])) as (new & rest & -> & Hlast).
      * apply elem_of_cons in Hin as [<-|?]; done.
      * rewrite elem_of_app, list_elem_of_singleton. intros [?|[= <-]]; done.
      * exists (v :: new), rest. rewrite <- app_assoc. split; [done|].
        by destruct new.
Qed.

(** X13. Where an identifiers-only walk ends.  If the serialised target is
    among the identifiers the query yields, the returned path ends with
    it.  If it is not, the walk fetches every row, and the path holds
    exactly the identifiers that were yielded. *)
Theorem traverse_ends_on_target_or_exhausts (target : string) (rows : list row) :
  let out := _traverse_loop false target rows [] in
  (SqlText target ∈ first_column rows →
   ∃ ids, out.1 = Ok (PyScalar <$> ids) ∧ last ids = Some (SqlText target))
  ∧ (SqlText target ∉ first_column rows →
     ∃ ids, out = (Ok (PyScalar <$> ids), [])
            ∧ ∀ v, v ∈ ids ↔ v ∈ first_column rows).
Proof.
  simpl. split.
  - intros Hin.
    destruct (traverse_loop_reaches target rows [] Hin) as (ids & rest & -> & Hlast);
      [apply not_elem_of_nil|].
    by exists ids.
  - intros Hnotin.
    destruct (traverse_identifiers target rows [] (@NoDup_nil_2 pyval))
      as (ids & rest & -> & _ & Hsub & [Hlast|[-> Hall]]).
    + exfalso. apply Hnotin. eapply elem_of_sublist; [|exact Hsub].
      apply last_Some in Hlast as [ids' ->]. apply elem_of_app. right. by left.
    + exists ids. split; [done|]. intros v. split.
      * intros Hv. by eapply elem_of_sublist.
      * intros Hv. specialize (Hall v Hv). simpl in Hall.
        apply list_elem_of_fmap in Hall as (v' & [= <-] & ?). done.
Qed.

(** ** Traversal: how the target is compared *)

Lemma string_length_app (s1 s2 : string) :
  String.length (s1 +:+ s2) = (String.length s1 + String.length s2)%nat.
Proof. induction s1 as [|c s1 IH]; simpl; [done|]. by rewrite IH. Qed.

Lemma json_escape_char_length (c : Ascii.ascii) :
  (1 ≤ String.length (json_escape_char c))%nat.
Proof. unfold json_escape_char. repeat case_decide; simpl; lia. Qed.

Lemma json_escape_length (s : string) :
  (String.length s ≤ String.length (json_escape s))%nat.
Proof.
  induction s as [|c s IH]; simpl; [done|]. rewrite string_length_app.
  pose proof (json_escape_char_length c). lia.
Qed.

Lemma json_dumps_id_str_neq (s : string) : json_dumps_id (Some (IdStr s)) ≠ s.
Proof.
  intros H. apply (f_equal String.length) in H. simpl in H.
  rewrite string_length_app in H. simpl in H.
  pose proof (json_escape_length s). lia.
Qed.

(** X14. The walk compares each identifier with [json.dumps(tgt)], a
    string.  For an integer target the walk stops at the identifier that
    is the decimal text of the integer, and goes on past the integer
    itself; for a string target it goes on past the identifier equal to
    that string, since the serialised target carries quotes. *)
Theorem traverse_compares_with_serialised_target :
  (∀ (n : Z) rows,
     _traverse_loop false (json_dumps_id (Some (IdInt n))) ([SqlText (pretty n)] :: rows) []
     = (Ok [PyScalar (SqlText (pretty n))], rows))
  ∧ (∀ (n : Z) rows,
     _traverse_loop false (json_dumps_id (Some (IdInt n))) ([SqlInt n] :: rows) []
     = _traverse_loop false (json_dumps_id (Some (IdInt n))) rows [PyScalar (SqlInt n)])
  ∧ (∀ (s : string) rows,
     _traverse_loop false (json_dumps_id (Some (IdStr s))) ([SqlText s] :: rows) []
     = _traverse_loop false (json_dumps_id (Some (IdStr s))) rows [PyScalar (SqlText s)]).
Proof.
  split_and!.
  - intros n rows. cbn [_traverse_loop json_dumps_id].
    rewrite decide_False by apply not_elem_of_nil. by rewrite decide_True.
  - intros n rows. cbn [_traverse_loop].
    rewrite decide_False by apply not_elem_of_nil. by rewrite decide_False.
  - intros s rows. cbn [_traverse_loop].
    rewrite decide_False by apply not_elem_of_nil.
    rewrite decide_False; [done|].
    intros [= H]. symmetry in H. by apply json_dumps_id_str_neq in H.
Qed.

(** ** Traversal with bodies: rows that are not triples *)

(** X15. With bodies, the first non-empty row that does not have three
    columns makes the walk raise [ValueError], provided the walk gets
    that far, that is, no row before it is the target node; the rows after
    it are not fetched. *)
Theorem traverse_with_bodies_rejects_short_rows (target : string)
    (before : list row) (r : row) (rest : list row) (path : list pyval) :
  Forall (λ r, length r = 3 ∧ ¬ is_target_node target r) before →
  r ≠ [] →
  length r ≠ 3 →
  ∃ msg, _traverse_loop true target (before ++ r :: rest) path
         = (Raise (ValueError msg), rest).
Proof.
  intros Hbefore Hr Hlen. revert path.
  induction Hbefore as [|b before [Hb Hnt] _ IH]; intros path.
  - destruct r as [|x1 [|x2 [|x3 [|x4 r]]]]; try done; by eexists.
  - destruct b as [|identifier [|obj [|document [|]]]]; try discriminate.
    cbn [app _traverse_loop]. rewrite decide_False; [apply IH|].
    intros [-> ->]. apply Hnt. by eexists.
Qed.

(** ** Search: what is returned *)

Lemma engine_search (where_clauses : list clause) (bindings : list param)
    (tree_query : bool) (key : option string) (fk : bool) (s : Store) :
  tree_query = true ∨ where_clauses ≠ [id_lookup_clause] →
  let q := _generate_query where_clauses None key tree_query in
  engine sel q bindings fk s = Ok (sel q bindings s, fk, s).
Proof.
  intros Hshape. unfold _generate_query. destruct tree_query; simpl.
  - by destruct (truthy key).
  - destruct Hshape as [?|Hne]; [done|].
    destruct where_clauses as [|c [|c' cs]]; try done.
    rewrite decide_False; [done|]. intros [_ ->]. done.
Qed.

Lemma _parse_search_results_decodes (rows : list row) (docs : list doc) (w : World) :
  Forall2 (λ (r : row) d, head r = Some (SqlJson d)) rows docs →
  _parse_search_results rows 0 w = (Ok docs, w).
Proof.
  intros Hrows. unfold _parse_search_results.
  induction Hrows as [|r d rows docs Hr _ IH]; cbn [comprehension].
  { by destruct w. }
  unfold_monad. destruct r as [|v r]; [done|]. injection Hr as ->.
  simpl. unfold_monad. by rewrite IH.
Qed.

(** X16. A search through [GraphDB.find_nodes] returns the documents of
    the rows the engine yields, one per row and in the engine's order,
    decoded from the first column; it changes neither the caller's
    dictionaries nor the content of any database file.  (Stated for every
    search but the point lookup that [find_node] renders, which the engine
    answers from the node relation.) *)
Theorem find_nodes_returns_yielded_documents (self : GraphDB.GraphDB)
    (where_clauses : list clause) (bindings : list param) (tree_query : bool)
    (key : option string) (docs : list doc) (p : Process) :
  tree_query = true ∨ where_clauses ≠ [id_lookup_clause] →
  Forall2 (λ (r : row) d, head r = Some (SqlJson d))
    (sel (_generate_query where_clauses None key tree_query) bindings
       (disk p !!! GraphDB.db_file self))
    docs →
  let out := GraphDB.find_nodes sel no_faults self where_clauses bindings
               tree_query key p in
  out.1 = Ok docs
  ∧ objects out.2 = objects p
  ∧ ∀ f, disk out.2 !!! f = disk p !!! f.
Proof.
  intros Hshape Hrows. simpl. unfold GraphDB.find_nodes.
  rewrite atomic_no_faults. unfold find_nodes, cursor_execute. unfold_monad.
  cbn [started cursor foreign_keys working executed heap].
  rewrite (engine_search where_clauses bindings tree_query key) by done.
  cbv zeta. rewrite (_parse_search_results_decodes _ docs) by done.
  simpl. split_and!; [done..|]. intros f.
  destruct (decide (GraphDB.db_file self = f)) as [<-|Hne].
  - by rewrite lookup_total_insert_eq.
  - by rewrite lookup_total_insert_ne.
Qed.

(** ** Traversal with bodies, from the query to the returned path *)

(** C7. A traversal in body-inclusion mode, on a working connection and
    over a neighbour query that yields rows of three columns, returns
    every yielded row, in order and without deduplication, up to and
    including the first row whose identifier is the serialised target and
    whose marker is ["()"], and stops there; when no row is the target
    node it returns every row the query yields.  The last row of an
    early-ended path is thus the target node, never an edge that touches
    it. *)
Theorem traverse_with_bodies (io : Faults) (db_file : string) (src : ident)
    (tgt : option ident) (inbound outbound : option bool) (p : Process) :
  connect_fault io = None →
  commit_fault io = None →
  bindable src →
  let target := json_dumps_id tgt in
  let rows := sel (TraverseRender true inbound outbound) [PId src]
                (disk p !!! db_file) in
  Forall (λ r : row, length r = 3) rows →
  let out := traverse sel io db_file src tgt
               (λ b, TraverseRender b inbound outbound) true p in
  (Forall (λ r, ¬ is_target_node target r) rows
   ∧ out.1 = Ok (PyTuple <$> rows))
  ∨ (∃ before r rest,
       rows = before ++ r :: rest
       ∧ Forall (λ r, ¬ is_target_node target r) before
       ∧ is_target_node target r
       ∧ out.1 = Ok (PyTuple <$> before ++ [r])).
Proof.
  intros Hio Hcommit _ target rows Hrows. simpl. unfold traverse.
  pose proof (atomic_contract_aux sel io db_file
                (_traverse sel src tgt (λ b, TraverseRender b inbound outbound) true)
                p) as H.
  simpl in H. rewrite Hio, _traverse_rows in H.
  cbn [started cursor working heap foreign_keys executed] in H.
  fold rows target in H.
  destruct (traverse_loop_with_bodies target rows [] Hrows)
    as [[Hall Hloop]|(before & r & rest & Heq & Hbefore & Hr & Hloop)];
    rewrite Hloop in H; simpl in H; rewrite Hcommit in H; rewrite H; simpl.
  - by left.
  - right. by exists before, r, rest.
Qed.

(** ** Writes file the document under the identifier it was given *)

Lemma stored_under_kept {A} (m : M A) (i : ident) (w : World) :
  node_writes_carry_id m →
  (is_Some (nodes (working (cursor w)) !! i) →
   is_Some (nodes (working (cursor (m w).2)) !! i)) →
  stored_under i (working (cursor w)) →
  stored_under i (working (cursor (m w).2)).
Proof.
  intros Hcarry Hkeep (b & Hb & Hid). destruct Hkeep as [b' Hb']; [by eexists|].
  exists b'. split; [done|]. destruct (Hcarry w i b' Hb') as [Hold|?]; [|done].
  rewrite Hb in Hold. by injection Hold as <-.
Qed.

Lemma add_node_row (o : option ident) (n : loc) (w : World) :
  (add_node sel n o w).1 = Ok tt →
  let s' := working (cursor (add_node sel n o w).2) in
  match o with
  | Some i =>
      ∃ body, nodes s' !! i = Some body ∧ carries_id i body
              ∧ heap (add_node sel n o w).2 !! n = Some body
  | None =>
      ∃ j body, nodes (working (cursor w)) !! j = None
                ∧ nodes s' !! j = Some body ∧ carries_id j body
  end.
Proof.
  unfold add_node. rewrite _insert_node_spec. simpl. destruct o as [i|].
  - rewrite lookup_alter_eq. destruct (heap w !! n) as [d|] eqn:Hd; simpl; [|done].
    rewrite insert_node_stmt_set_id.
    destruct (nodes (working (cursor w)) !! i); simpl; [done|]. intros _.
    exists (<["id" := ident_value i]> d). rewrite lookup_insert_eq.
    split_and!; [done| |by rewrite lookup_alter_eq, Hd].
    apply lookup_insert_eq.
  - unfold insert_node_stmt. destruct (doc_id _) as [j|] eqn:Hid; simpl; [|done].
    destruct (nodes (working (cursor w)) !! j) eqn:Hj; simpl; [done|]. intros _.
    eexists j, _. rewrite lookup_insert_eq. split_and!; [done..|].
    by apply doc_id_lookup.
Qed.

Lemma _upsert_node_keeps_stored (j : ident) (n : loc) (i : ident) (w : World) :
  is_Some (nodes (working (cursor w)) !! i) →
  is_Some (nodes (working (cursor (_upsert_node sel j n w).2)) !! i).
Proof.
  intros Hi. destruct (nodes (working (cursor w)) !! j) as [C|] eqn:Hcur.
  - destruct (decide (C = ∅)) as [->|Hne].
    + rewrite _upsert_node_absent by (by rewrite Hcur).
      pose proof (add_node_keeps_stored (Some j) n i (find_node sel j w).2) as H.
      unfold add_node in H. rewrite find_node_spec in H |- *. by apply H.
    + rewrite (_upsert_node_present sel j n w C) by done. simpl.
      rewrite lookup_insert_is_Some'. by right.
  - rewrite _upsert_node_absent by (by rewrite Hcur).
    pose proof (add_node_keeps_stored (Some j) n i (find_node sel j w).2) as H.
    unfold add_node in H. rewrite find_node_spec in H |- *. by apply H.
Qed.

Lemma _upsert_node_row (i : ident) (n : loc) (w : World) :
  (_upsert_node sel i n w).1 = Ok tt →
  stored_under i (working (cursor (_upsert_node sel i n w).2)).
Proof.
  destruct (nodes (working (cursor w)) !! i) as [C|] eqn:Hcur.
  - destruct (decide (C = ∅)) as [->|Hne].
    + rewrite _upsert_node_absent by (by rewrite Hcur).
      pose proof (add_node_row (Some i) n (find_node sel i w).2) as H.
      unfold add_node in H. intros Hok.
      destruct (H Hok) as (body & ? & ? & _). by exists body.
    + rewrite (_upsert_node_present sel i n w C) by done. simpl. intros _.
      eexists. split; [apply lookup_insert_eq|].
      unfold carries_id, merged. apply lookup_insert_eq.
  - rewrite _upsert_node_absent by (by rewrite Hcur).
    pose proof (add_node_row (Some i) n (find_node sel i w).2) as H.
    unfold add_node in H. intros Hok.
    destruct (H Hok) as (body & ? & ? & _). by exists body.
Qed.

Lemma add_each_rows (l : list (option ident * loc)) (w : World) (i : ident) (n : loc) :
  (for_each (λ '(i, n), add_node sel n i) l w).1 = Ok tt →
  (stored_under i (working (cursor w)) ∨ (Some i, n) ∈ l) →
  stored_under i (working (cursor (for_each (λ '(i, n), add_node sel n i) l w).2)).
Proof.
  revert w. induction l as [|[o m] l IH]; intros w Hok Hin.
  { destruct Hin as [?|Hin]; [done|inversion Hin]. }
  cbn [for_each] in *. unfold_monad.
  pose proof (add_node_row o m w) as Hrow.
  pose proof (stored_under_kept (add_node sel m o) i w
                (carry_insert_node sel o m) (add_node_keeps_stored o m i w)) as Hkeep.
  destruct (add_node sel m o w) as [[[]|e] w1]; [|done]. simpl in *.
  apply IH; [done|]. destruct Hin as [Hst|[[= <- <-]|Hin]%elem_of_cons].
  - left. by apply Hkeep.
  - left. destruct (Hrow eq_refl) as (body & ? & ? & _). by exists body.
  - by right.
Qed.

Lemma upsert_each_rows (l : list (ident * loc)) (w : World) (i : ident) (n : loc) :
  (for_each (λ '(i, n), _upsert_node sel i n) l w).1 = Ok tt →
  (stored_under i (working (cursor w)) ∨ (i, n) ∈ l) →
  stored_under i (working (cursor (for_each (λ '(i, n), _upsert_node sel i n) l w).2)).
Proof.
  revert w. induction l as [|[j m] l IH]; intros w Hok Hin.
  { destruct Hin as [?|Hin]; [done|inversion Hin]. }
  cbn [for_each] in *. unfold_monad.
  pose proof (_upsert_node_row j m w) as Hrow.
  pose proof (stored_under_kept (_upsert_node sel j m) i w
                (carry_upsert_node sel j m) (_upsert_node_keeps_stored j m i w))
    as Hkeep.
  destruct (_upsert_node sel j m w) as [[[]|e] w1]; [|done]. simpl in *.
  apply IH; [done|]. destruct Hin as [Hst|[[= <- <-]|Hin]%elem_of_cons].
  - left. by apply Hkeep.
  - left. by apply Hrow.
  - by right.
Qed.

(** C4. Every node-store write keeps [body["id"] == id].  A node row found
    after single or bulk insert, or single or bulk upsert, was there
    before, unchanged, or its document has ["id"] equal to the identifier
    of the row.  And a write that returns has filed its document under the
    identifier it was given (one that can be bound), whatever ["id"] the
    caller's document had or lacked: after [add_node] with an identifier the row of that identifier
    holds the caller's document, which now carries the identifier; after
    an insert without identifier a new row carries its own identifier;
    after [upsert_node], and for every element of a bulk insert or bulk
    upsert, the row of the given identifier carries that identifier. *)
Theorem node_writes_store_body_under_its_id :
  (∀ data i w,
     let out := add_node sel data (Some i) w in
     writes_carry_id (working (cursor w)) (working (cursor out.2))
     ∧ (out.1 = Ok tt → bindable i →
        ∃ body, nodes (working (cursor out.2)) !! i = Some body
                ∧ carries_id i body ∧ heap out.2 !! data = Some body))
  ∧ (∀ data w,
     let out := add_node sel data None w in
     writes_carry_id (working (cursor w)) (working (cursor out.2))
     ∧ (out.1 = Ok tt →
        ∃ j body, nodes (working (cursor w)) !! j = None
                  ∧ nodes (working (cursor out.2)) !! j = Some body
                  ∧ carries_id j body))
  ∧ (∀ i data w,
     let out := upsert_node sel i data w in
     writes_carry_id (working (cursor w)) (working (cursor out.2))
     ∧ (out.1 = Ok tt → bindable i → stored_under i (working (cursor out.2))))
  ∧ (∀ ns ids w,
     let out := add_nodes sel ns ids w in
     writes_carry_id (working (cursor w)) (working (cursor out.2))
     ∧ (out.1 = Ok tt →
        ∀ i n, (Some i, n) ∈ zip ids ns → bindable i →
               stored_under i (working (cursor out.2))))
  ∧ (∀ ns ids w,
     let out := upsert_nodes sel ns ids w in
     writes_carry_id (working (cursor w)) (working (cursor out.2))
     ∧ (out.1 = Ok tt →
        ∀ i n, (i, n) ∈ zip ids ns → bindable i →
               stored_under i (working (cursor out.2)))).
Proof.
  destruct (node_writes_carry_id_all sel) as (Hadd & Hadds & Hup & Hups).
  split_and!.
  - intros data i w. split; [apply Hadd|]. intros Hok _.
    by apply (add_node_row (Some i) data w).
  - intros data w. split; [apply Hadd|]. apply (add_node_row None data w).
  - intros i data w. split; [apply Hup|]. intros Hok _.
    by apply _upsert_node_row.
  - intros ns ids w. split; [apply Hadds|]. simpl. intros Hok i n Hin _.
    destruct (add_nodes_same_effect sel ns ids w) as [Hsame Hdb].
    rewrite Hok in Hsame, Hdb. simpl in Hsame. rewrite (Hdb eq_refl).
    unfold one_by_one in *. rewrite for_each_fmap in *.
    apply (add_each_rows (zip ids ns) w i n); [|by right].
    by destruct (for_each _ (zip ids ns) w) as [[[]|e] w1].
  - intros ns ids w. split; [apply Hups|]. simpl. intros Hok i n Hin _.
    apply (upsert_each_rows (zip ids ns) w i n); [exact Hok|by right].
Qed.

End Further.

(** * Concrete runs of the further properties *)

Lemma add_node_then_find_node_witness :
  objects apple !! 1%positive = Some new_prop
  ∧ nodes (disk apple !!! "graph.db") !! IdStr "7" = None
  ∧ (atomic no_rows no_faults "graph.db" (find_node no_rows (IdStr "7"))
       (atomic no_rows no_faults "graph.db"
          (add_node no_rows 1%positive (Some (IdStr "7"))) apple).2).1
    = Ok (<["id" := VStr "7"]> new_prop).
Proof.
  split_and!; [reflexivity..|].
  apply (add_node_then_find_node no_rows "graph.db" (IdStr "7") 1%positive new_prop
           apple); [reflexivity|exact I|reflexivity].
Defined.

Lemma add_node_duplicate_is_rejected_witness :
  connect_fault no_faults = None
  ∧ objects apple !! 1%positive = Some new_prop
  ∧ nodes (disk apple !!! "graph.db") !! IdStr "3" = Some jobs
  ∧ disk (atomic no_rows no_faults "graph.db"
            (add_node no_rows 1%positive (Some (IdStr "3"))) apple).2
    = disk apple.
Proof.
  split_and!; [reflexivity..|].
  apply (add_node_duplicate_is_rejected no_rows no_faults "graph.db" (IdStr "3")
           1%positive new_prop jobs apple); reflexivity.
Defined.

Lemma add_node_without_identifier_witness :
  heap (world_with (<["id" := VStr "7"]> new_prop)) !! 1%positive
  = Some (<["id" := VStr "7"]> new_prop)
  ∧ (<["id" := VStr "7"]> new_prop : doc) !! "id" = Some (ident_value (IdStr "7"))
  ∧ bindable (IdStr "7")
  ∧ nodes (working (cursor (world_with (<["id" := VStr "7"]> new_prop))))
      !! IdStr "7" = None
  ∧ (add_node no_rows 1%positive None
       (world_with (<["id" := VStr "7"]> new_prop))).1 = Ok tt.
Proof.
  assert (heap (world_with (<["id" := VStr "7"]> new_prop)) !! 1%positive
          = Some (<["id" := VStr "7"]> new_prop)) as H1 by (vm_compute; reflexivity).
  assert ((<["id" := VStr "7"]> new_prop : doc) !! "id"
          = Some (ident_value (IdStr "7"))) as H2 by (vm_compute; reflexivity).
  assert (nodes (working (cursor (world_with (<["id" := VStr "7"]> new_prop))))
            !! IdStr "7" = None) as H3 by (vm_compute; reflexivity).
  split_and!; [exact H1|exact H2|exact I|exact H3|].
  destruct (add_node_without_identifier no_rows 1%positive
              (<["id" := VStr "7"]> new_prop) (IdStr "7")
              (world_with (<["id" := VStr "7"]> new_prop)) H1 H2 I)
    as (_ & Hfree & _).
  destruct (Hfree H3) as (Hok & _). exact Hok.
Defined.

Lemma upsert_node_then_find_node_witness :
  objects apple !! 1%positive = Some new_prop
  ∧ (atomic no_rows no_faults "graph.db" (upsert_node no_rows (IdStr "3") 1%positive)
       apple).1 = Ok tt
  ∧ ∃ stored,
      (atomic no_rows no_faults "graph.db" (find_node no_rows (IdStr "3"))
         (atomic no_rows no_faults "graph.db"
            (upsert_node no_rows (IdStr "3") 1%positive) apple).2).1
      = Ok stored
      ∧ carries_id (IdStr "3") stored.
Proof.
  split; [reflexivity|]. split; [vm_compute; reflexivity|].
  destruct (upsert_node_then_find_node no_rows "graph.db" (IdStr "3") 1%positive
              new_prop apple) as (stored & Hfound & Hid & _).
  - reflexivity.
  - vm_compute. reflexivity.
  - exists stored. split; [exact Hfound|exact Hid].
Defined.

Lemma upsert_nodes_never_fails_witness :
  Forall bindable [IdStr "3"]
  ∧ Forall (λ l, is_Some (heap (world_with new_prop) !! l)) [1%positive]
  ∧ map_Forall carries_id (nodes (working (cursor (world_with new_prop))))
  ∧ (upsert_nodes no_rows [1%positive] [IdStr "3"] (world_with new_prop)).1 = Ok tt.
Proof.
  assert (Forall (λ l, is_Some (heap (world_with new_prop) !! l)) [1%positive]) as H1.
  { constructor; [|constructor]. eexists. reflexivity. }
  assert (map_Forall carries_id (nodes (working (cursor (world_with new_prop)))))
    as H2.
  { apply map_Forall_insert_2; [reflexivity|].
    apply map_Forall_insert_2; [reflexivity|]. apply map_Forall_empty. }
  assert (Forall bindable [IdStr "3"]) as H0.
  { constructor; [exact I|constructor]. }
  split_and!; [exact H0|exact H1|exact H2|].
  apply (upsert_nodes_never_fails no_rows [1%positive] [IdStr "3"]
           (world_with new_prop) H0 H1 H2).
Defined.

Lemma connect_nodes_referential_integrity_witness :
  connect_fault no_faults = None
  ∧ nodes (disk apple !!! "graph.db") !! IdStr "nonexistent" = None
  ∧ (GraphDB.connect_nodes no_rows no_faults graph (IdStr "3") (IdStr "nonexistent")
       ∅ apple).1
    = Raise (IntegrityError "FOREIGN KEY constraint failed").
Proof.
  split_and!; [reflexivity..|].
  apply (connect_nodes_referential_integrity no_rows no_faults graph (IdStr "3")
           (IdStr "nonexistent") ∅ apple eq_refl I I).
  right. reflexivity.
Defined.

Lemma find_node_returns_stored_or_empty_witness :
  bindable (IdStr "3")
  ∧ (GraphDB.find_node no_rows no_faults graph (IdStr "3") apple).1 = Ok jobs.
Proof.
  split; [exact I|].
  apply (find_node_returns_stored_or_empty no_rows graph (IdStr "3") apple I).
Defined.

Lemma remove_nodes_removes_exactly_witness :
  Forall bindable [IdInt 2; IdStr "absent"]
  ∧ (remove_nodes no_rows [IdInt 2; IdStr "absent"] (world_with new_prop)).1 = Ok tt.
Proof.
  assert (Forall bindable [IdInt 2; IdStr "absent"]) as H.
  { constructor; [simpl; lia|]. constructor; [exact I|constructor]. }
  split; [exact H|].
  apply (remove_nodes_removes_exactly no_rows [IdInt 2; IdStr "absent"]
           (world_with new_prop) H).
Defined.


Lemma add_nodes_repeated_identifier_rolls_back_witness :
  0 < 1
  ∧ 1 < length [1%positive; 1%positive]
  ∧ disk (atomic no_rows no_faults "graph.db"
            (add_nodes no_rows [1%positive; 1%positive]
               [Some (IdStr "a"); Some (IdStr "a")]) apple).2
    = disk apple.
Proof.
  split_and!; [lia|simpl; lia|].
  apply (add_nodes_repeated_identifier_rolls_back no_rows no_faults "graph.db"
           [1%positive; 1%positive] [Some (IdStr "a"); Some (IdStr "a")]
           (IdStr "a") 0 1 apple); [lia|simpl; lia|reflexivity|reflexivity].
Defined.

Lemma traverse_with_bodies_rejects_short_rows_witness :
  [SqlText "2"] ≠ []
  ∧ length [SqlText "2"] ≠ 3
  ∧ ∃ msg, _traverse_loop true "3" [[SqlText "2"]; [SqlText "3"]] []
           = (Raise (ValueError msg), [[SqlText "3"]]).
Proof.
  split_and!; [discriminate|discriminate|].
  apply (traverse_with_bodies_rejects_short_rows "3" [] [SqlText "2"]
           [[SqlText "3"]] []); [constructor|discriminate|discriminate].
Defined.

Lemma find_nodes_returns_yielded_documents_witness :
  Forall2 (λ (r : row) d, head r = Some (SqlJson d)) [[SqlJson jobs]] [jobs]
  ∧ (GraphDB.find_nodes (yields [[SqlJson jobs]]) no_faults graph
       [_generate_clause (Some "name") None None true true] [PAny (VStr "Jobs")]
       true (Some "name") apple).1
    = Ok [jobs].
Proof.
  assert (Forall2 (λ (r : row) d, head r = Some (SqlJson d)) [[SqlJson jobs]] [jobs])
    as Hrows.
  { constructor; [reflexivity|constructor]. }
  split; [exact Hrows|].
  apply (find_nodes_returns_yielded_documents (yields [[SqlJson jobs]]) graph
           [_generate_clause (Some "name") None None true true] [PAny (VStr "Jobs")]
           true (Some "name") [jobs] apple); [by left|exact Hrows].
Defined.

Lemma traverse_with_bodies_witness :
  let rows := [[SqlText "2"; SqlText "()"; SqlText "{}"];
               [SqlText "3"; SqlText "->"; SqlText "{}"];
               [SqlText "3"; SqlText "()"; SqlText "{}"];
               [SqlText "1"; SqlText "->"; SqlText "{}"]] in
  connect_fault no_faults = None
  ∧ commit_fault no_faults = None
  ∧ bindable (IdInt 2)
  ∧ Forall (λ r : row, length r = 3) rows
  ∧ (traverse (yields rows) no_faults "graph.db" (IdInt 2) (Some (IdInt 3))
       find_neighbors true apple).1
    = Ok (PyTuple <$> take 3 rows).
Proof.
  assert (bindable (IdInt 2)) as Hsrc by (simpl; lia).
  split_and!; [reflexivity|reflexivity|exact Hsrc|repeat constructor|].
  destruct (traverse_with_bodies
              (yields [[SqlText "2"; SqlText "()"; SqlText "{}"];
                       [SqlText "3"; SqlText "->"; SqlText "{}"];
                       [SqlText "3"; SqlText "()"; SqlText "{}"];
                       [SqlText "1"; SqlText "->"; SqlText "{}"]])
              no_faults "graph.db" (IdInt 2) (Some (IdInt 3)) (Some true) (Some true)
              apple eq_refl eq_refl Hsrc)
    as [[_ H]|(before & r & rest & _ & _ & _ & H)];
    [repeat constructor|vm_compute in H; discriminate H|].
  vm_compute. reflexivity.
Defined.

(** The caller's document says ["id": "3"]; filed under 7 it carries 7. *)
Lemma node_writes_store_body_under_its_id_witness :
  let out := add_node no_rows 1%positive (Some (IdInt 7)) (world_with jobs) in
  out.1 = Ok tt
  ∧ bindable (IdInt 7)
  ∧ ∃ body, nodes (working (cursor out.2)) !! IdInt 7 = Some body
            ∧ carries_id (IdInt 7) body ∧ heap out.2 !! 1%positive = Some body.
Proof.
  assert ((add_node no_rows 1%positive (Some (IdInt 7)) (world_with jobs)).1 = Ok tt)
    as Hok by (vm_compute; reflexivity).
  assert (bindable (IdInt 7)) as Hid by (simpl; lia).
  split_and!; [exact Hok|exact Hid|].
  destruct (node_writes_store_body_under_its_id no_rows) as (Hadd & _).
  exact (proj2 (Hadd 1%positive (IdInt 7) (world_with jobs)) Hok Hid).
Defined.
